(** * frescobaldi_app/midiplayer.py: the MIDI player's event list and cursor

    A shallow embedding of [midiplayer.py]: the [Event] bundle, the
    [make_event_list] builder and the [Player] base class with its
    seeking and stepping methods, followed by the properties of the
    written specification that were checked against it.

    Python integers are unbounded, so timestamps, positions and times
    are [Z].  Python exceptions are explicit: every method that can
    raise lives in a state-and-exception monad over the player object
    and the record of hook calls it has made. *)

From stdpp Require Import numbers gmap list sorting strings pretty.
From Stdlib Require Import Ascii.
From Equations Require Import Equations.

Local Open Scope Z_scope.

(** ** Python values and exceptions *)

Inductive Exception : Type :=
  | IndexError
  | NameError
  | UnboundLocalError.

Inductive Outcome (A : Type) : Type :=
  | Return (a : A)
  | Raise (e : Exception).
Arguments Return {A} a.
Arguments Raise {A} e.

(** [l[i]] on a Python list: a negative index counts from the end, an
    index outside [-len, len) raises IndexError. *)
Definition py_index {A : Type} (l : list A) (i : Z) : Outcome A :=
  let n := Z.of_nat (length l) in
  let k := if bool_decide (i < 0) then i + n else i in
  if bool_decide (0 ≤ k < n) then
    match l !! Z.to_nat k with
    | Some x => Return x
    | None => Raise IndexError
    end
  else Raise IndexError.

(** [range(start, stop, step)] for a non-zero step: the values
    [start + step*i], [i >= 0], that lie before [stop] in the direction
    of the step. *)
Definition py_range (start stop step : Z) : list Z :=
  let count :=
    if bool_decide (0 < step) then (stop - start + step - 1) `div` step
    else (start - stop - step - 1) `div` (- step) in
  (λ i, start + step * i) <$> seqZ 0 count.

(** A string in which a character does not occur. *)
Fixpoint free_of (c : ascii) (s : string) : Prop :=
  match s with
  | EmptyString => True
  | String a s' => a ≠ c ∧ free_of c s'
  end.

Section midiplayer.
(** The MIDI payload of an event is whatever the song stores; the
    player only tests its truth value and passes it on.  The tempo
    factor is stored and returned, never computed with. *)
Context {Payload Tempo : Type}.
Variable payload_truthy : Payload → bool.

(** ** class Event *)

(** [beat] is [None] or the tuple [(measnum, beat, num, den)]. *)
Definition Beat : Type := Z * Z * Z * Z.

Record Event : Type := mkEvent {
  midi : option Payload;
  time : bool;            (* None (falsy) or True *)
  beat : option Beat
}.

(** [Event.__init__] *)
Definition Event_init : Event :=
  {| midi := None; time := false; beat := None |}.

Definition set_midi (e : Event) (evs : Payload) : Event :=
  {| midi := Some evs; time := time e; beat := beat e |}.
Definition set_time (e : Event) : Event :=
  {| midi := midi e; time := true; beat := beat e |}.
Definition set_beat (e : Event) (b : Beat) : Event :=
  {| midi := midi e; time := time e; beat := Some b |}.

(** [Event.__repr__]: the integers of the beat are formatted in
    decimal, as [str.format] does. *)
Definition Event_repr (e : Event) : string :=
  let l : list string := [] in
  let l := if time e then l ++ ["time"] else l in
  let l := match beat e with
           | Some (measnum, b, _, _) =>
               l ++ ["beat(" +:+ pretty measnum +:+ ":" +:+ pretty b +:+ ")"]
           | None => l
           end in
  let l := match midi e with
           | Some m => if payload_truthy m then l ++ ["midi"] else l
           | None => l
           end in
  ("<Event " +:+ String.concat ", " l) +:+ ">".

(** What [Event.__repr__] looks at: the truth of [time], the first
    two components of [beat], the truth of [midi]. *)
Definition shown (e : Event) : bool * option (Z * Z) * bool :=
  (time e,
   match beat e with
   | Some (measnum, b, _, _) => Some (measnum, b)
   | None => None
   end,
   match midi e with
   | Some m => payload_truthy m
   | None => false
   end).

(** The attributes of a [midisong.Song] that the player reads. *)
Record Song : Type := mkSong {
  music : list (Z * Payload);
  length : Z;
  beats : list (Z * Beat)      (* i[0] and i[1:] of each beat tuple *)
}.

(** ** class Player *)

Record Player : Type := mkPlayer {
  _song : option Song;
  _events : list (Z * Event);
  _position : Z;
  _tempo_factor : Tempo
}.

(** [self._position = v] *)
Definition assign_position (p : Player) (v : Z) : Player :=
  {| _song := _song p; _events := _events p;
     _position := v; _tempo_factor := _tempo_factor p |}.

(** [self._tempo_factor = v] *)
Definition assign_tempo_factor (p : Player) (v : Tempo) : Player :=
  {| _song := _song p; _events := _events p;
     _position := _position p; _tempo_factor := v |}.

(** The methods a subclass overrides to act on the outside world.
    In the base class they do nothing; the calls made to them are
    recorded, in order. *)
Inductive Call : Type :=
  | midi_event (m : Payload)
  | time_event (msec : Z)
  | beat_event (measnum b num den : Z)
  | stop
  | set_position (position time_offset : Z).

Record World : Type := mkWorld {
  self : Player;
  calls : list Call
}.

Definition M (A : Type) : Type := World → Outcome A * World.

Definition ret {A : Type} (a : A) : M A := λ w, (Return a, w).
Definition raise {A : Type} (e : Exception) : M A := λ w, (Raise e, w).
Definition bind {A B : Type} (m : M A) (k : A → M B) : M B :=
  λ w, match m w with
       | (Return a, w') => k a w'
       | (Raise e, w') => (Raise e, w')
       end.
Definition lift {A : Type} (o : Outcome A) : M A := λ w, (o, w).
Definition get : M Player := λ w, (Return (self w), w).
Definition put (p : Player) : M unit :=
  λ w, (Return tt, {| self := p; calls := calls w |}).
Definition call (c : Call) : M unit :=
  λ w, (Return tt, {| self := self w; calls := calls w ++ [c] |}).

Notation "x ←← m ;; k" := (bind m (λ x, k))
  (at level 100, m at next level, right associativity).
Notation "m ;;; k" := (bind m (λ _, k))
  (at level 100, right associativity).

(** [Player.set_position]: stores the position and ignores the time
    offset; being the hook behind [seek] and [seek_measure], the call
    is recorded with both arguments. *)
Definition do_set_position (position time_offset : Z) : M unit :=
  p ←← get ;;
  put (assign_position p position) ;;;
  call (set_position position time_offset).

(** The [while pos < end] loop of [seek]. *)
Equations? bisect (events : list (Z * Event)) (t pos end_ : Z) : Outcome Z
  by wf (Z.to_nat (end_ - pos)) lt :=
  bisect events t pos end_ with decide (pos < end_) => {
    | right _ => Return pos
    | left Hlt =>
        match py_index events ((pos + end_) `div` 2) with
        | Raise e => Raise e
        | Return ev =>
            if bool_decide (t > ev.1)
            then bisect events t ((pos + end_) `div` 2 + 1) end_
            else bisect events t pos ((pos + end_) `div` 2)
        end }.
Proof.
  all: pose proof (Z.div_le_lower_bound (pos + end_) 2 pos);
    pose proof (Z.div_lt_upper_bound (pos + end_) 2 end_); lia.
Qed.

(** [Player.total_time] *)
Definition total_time (p : Player) : Outcome Z :=
  match _events p with
  | [] => Return 0
  | _ :: _ =>
      match py_index (_events p) (-1) with
      | Return ev => Return ev.1
      | Raise e => Raise e
      end
  end.

(** [Player.current_time] *)
Definition current_time (p : Player) : Outcome Z :=
  let pos := _position p - 1 in
  if bool_decide (pos >= 0) then
    match py_index (_events p) pos with
    | Return ev => Return ev.1
    | Raise e => Raise e
    end
  else Return 0.

(** [Player.set_tempo_factor] and [Player.tempo_factor] *)
Definition set_tempo_factor (factor : Tempo) : M unit :=
  p ←← get ;;
  put (assign_tempo_factor p factor).

Definition tempo_factor (p : Player) : Tempo := _tempo_factor p.

(** [Player.seek] *)
Definition seek (time : Z) : M unit :=
  p ←← get ;;
  if bool_decide (time ≠ 0) then
    pos ←← lift (bisect (_events p) time 0 (Z.of_nat (List.length (_events p)))) ;;
    ev ←← lift (py_index (_events p) pos) ;;
    do_set_position pos (ev.1 - time)
  else do_set_position 0 0.

(** The [for i, (t, e) in enumerate(self._events)] loop of
    [seek_measure].  The local [position] is unbound until the first
    assignment; [result] and [position] are returned as the loop
    leaves them, whether by [break] or by exhausting the list. *)
Fixpoint seek_measure_loop (l : list (Z * Event)) (i measnum beat_ : Z)
    (result : bool) (position : option Z) : bool * option Z :=
  match l with
  | [] => (result, position)
  | (_, e) :: l' =>
      match beat e with
      | None => seek_measure_loop l' (i + 1) measnum beat_ result position
      | Some (m, b, _, _) =>
          let '(result, position, brk) :=
            if bool_decide (m = measnum)
            then (true, Some i, bool_decide (b >= beat_))
            else (result, position, false) in
          if brk then (result, position)
          else if bool_decide (m > measnum) then (result, position)
          else seek_measure_loop l' (i + 1) measnum beat_ result position
      end
  end.

(** [Player.seek_measure] *)
Definition seek_measure (measnum beat_ : Z) : M bool :=
  p ←← get ;;
  let '(result, position) :=
    seek_measure_loop (_events p) 0 measnum beat_ false None in
  if result then
    match position with
    | Some i => do_set_position i 0 ;;; ret true
    | None => raise UnboundLocalError
    end
  else ret false.

(** The vocabulary of the specification of [seek_measure]: an event
    carries a beat marker in the measure asked for; an event makes
    the forward scan stop (its marker's measure is beyond the one
    asked for, or it is in that measure at or after the beat asked
    for); an index is reached by the scan (nothing before it stops
    the scan); an index is found (it is reached and in the measure). *)
Definition in_measure (measnum : Z) (e : Event) : Prop :=
  ∃ b num den, beat e = Some (measnum, b, num, den).

Definition halts (measnum beat_ : Z) (e : Event) : Prop :=
  ∃ m b num den, beat e = Some (m, b, num, den) ∧
    (m > measnum ∨ (m = measnum ∧ b >= beat_)).

Definition scanned (events : list (Z * Event)) (measnum beat_ : Z)
    (i : nat) : Prop :=
  ∀ (j : nat) ev, (j < i)%nat → events !! j = Some ev →
                  ¬ halts measnum beat_ ev.2.

Definition found (events : list (Z * Event)) (measnum beat_ : Z)
    (i : nat) : Prop :=
  scanned events measnum beat_ i ∧
  ∃ ev, events !! i = Some ev ∧ in_measure measnum ev.2.

(** What an observer of the player sees of the outcome of a method:
    the value returned or the exception raised, the position, the
    list of events and the calls made to the hooks. *)
Definition observed {A : Type} (r : Outcome A * World)
    : Outcome A * Z * list (Z * Event) * list Call :=
  (r.1, _position (self r.2), _events (self r.2), calls r.2).

(** The body of [handle_event] as it is written, over the event that
    the name [e] denotes. *)
Definition handle_event_body (time_ : Z) (e : Event) : M unit :=
  (match midi e with
   | Some m => if payload_truthy m then call (midi_event m) else ret tt
   | None => ret tt
   end) ;;;
  (if time e then call (time_event time_) else ret tt) ;;;
  (match beat e with
   | Some (measnum, b, num, den) => call (beat_event measnum b num den)
   | None => ret tt
   end).

(** What the specification asks of the dispatch of an event: the
    calls to the three hooks, each under its own test, in the order
    midi, time, beat. *)
Definition dispatched (time_ : Z) (e : Event) : list Call :=
  (match midi e with
   | Some m => if payload_truthy m then [midi_event m] else []
   | None => []
   end) ++
  (if time e then [time_event time_] else []) ++
  (match beat e with
   | Some (measnum, b, num, den) => [beat_event measnum b num den]
   | None => []
   end).

(** What the name [e] evaluates to inside [handle_event].  The
    parameters are [self], [time] and [event]; the module binds
    [collections], [midisong], [Player], [Event] and
    [make_event_list]; [e] is none of them and no builtin. *)
Definition name_e : Outcome Event := Raise NameError.

(** [Player.handle_event] *)
Definition handle_event (time_ : Z) (event : Event) : M unit :=
  e ←← lift name_e ;;
  handle_event_body time_ e.

(** [Player.finish]: calls [stop]. *)
Definition finish : M unit := call stop.

(** [Player.next_event] *)
Definition next_event : M Z :=
  p ←← get ;;
  if bool_decide (_events p ≠ [])
     && bool_decide (_position p < Z.of_nat (List.length (_events p))) then
    ev ←← lift (py_index (_events p) (_position p)) ;;
    handle_event ev.1 ev.2 ;;;
    p ←← get ;;
    put (assign_position p (_position p + 1)) ;;;
    p ←← get ;;
    if bool_decide (_position p < Z.of_nat (List.length (_events p))) then
      nxt ←← lift (py_index (_events p) (_position p)) ;;
      ret (nxt.1 - ev.1)
    else finish ;;; ret 0
  else ret 0.

(** ** make_event_list *)

(** [d[t]] on the [collections.defaultdict(Event)]: a missing key
    reads as a fresh [Event()]. *)
Definition getitem (d : gmap Z Event) (t : Z) : Event :=
  default Event_init (d !! t).

Definition add_midi (d : gmap Z Event) (x : Z * Payload) : gmap Z Event :=
  <[x.1 := set_midi (getitem d x.1) x.2]> d.
Definition add_time (d : gmap Z Event) (t : Z) : gmap Z Event :=
  <[t := set_time (getitem d t)]> d.
Definition add_beat (d : gmap Z Event) (i : Z * Beat) : gmap Z Event :=
  <[i.1 := set_beat (getitem d i.1) i.2]> d.

(** The dictionary [d] after the three loops.  [time] is [None] or an
    integer, tested for truth; [beat] is tested for truth. *)
Definition event_dict (song : Song) (time : option Z) (beat : bool)
    : gmap Z Event :=
  let d := foldl add_midi ∅ (music song) in
  let d :=
    match time with
    | Some step =>
        if bool_decide (step ≠ 0)
        then foldl add_time d (py_range 0 (length song + 1) step)
        else d
    | None => d
    end in
  if beat then foldl add_beat d (beats song) else d.

(** [[(t, d[t]) for t in sorted(d)]] *)
Definition make_event_list (song : Song) (time : option Z) (beat : bool)
    : list (Z * Event) :=
  let d := event_dict song time beat in
  (λ t, (t, getitem d t)) <$> merge_sort Z.le (elements (dom d)).

(** [Player.set_song] *)
Definition set_song (song : Song) (time : option Z) (beat : bool) : M unit :=
  p ←← get ;;
  put {| _song := Some song;
         _events := make_event_list song time beat;
         _position := _position p; _tempo_factor := _tempo_factor p |}.

End midiplayer.

(** ** Concrete players used to run the code *)

Module Examples.
Definition Payload : Type := string.
Definition payload_truthy (m : Payload) : bool := negb (String.eqb m "").

Definition bare (t : Z) : Z * @Event Payload := (t, set_time Event_init).

(** A timeline with the timestamps 0, 50 and 100. *)
Definition events3 : list (Z * @Event Payload) := [bare 0; bare 50; bare 100].

Definition player (events : list (Z * @Event Payload)) (position : Z)
    (factor : Qp) : @Player Payload Qp :=
  {| _song := None; _events := events;
     _position := position; _tempo_factor := factor |}.

(** A player that has made no call yet, with the default tempo
    factor 1.0 or with another one. *)
Definition world (events : list (Z * @Event Payload)) (position : Z)
    : @World Payload Qp :=
  {| self := player events position 1%Qp; calls := [] |}.

Definition marker (t measnum b num den : Z) : Z * @Event Payload :=
  (t, set_beat Event_init (measnum, b, num, den)).

(** Beats at 0 (1:1), 480 (1:2) and 960 (2:1), all in 4/4. *)
Definition beats3 : list (Z * @Event Payload) :=
  [marker 0 1 1 4 4; marker 480 1 2 4 4; marker 960 2 1 4 4].

(** One event at time 0 with a MIDI payload, a time tick and a beat
    marker. *)
Definition full : list (Z * @Event Payload) :=
  [(0, {| midi := Some "A"; time := true; beat := Some (1, 1, 4, 4) |})].

(** Two MIDI payloads, at 0 and at 100, a length of 100 and one
    beat at 0. *)
Definition song : @Song Payload :=
  {| music := [(0, "A"); (100, "B")]; length := 100;
     beats := [(0, (1, 1, 4, 4))] |}.

(** Two MIDI payloads and two beats, all at timestamp 0. *)
Definition song_twice : @Song Payload :=
  {| music := [(0, "A"); (0, "C")]; length := 0;
     beats := [(0, (1, 1, 4, 4)); (0, (2, 1, 3, 4))] |}.

Definition world_tempo (events : list (Z * @Event Payload)) (position : Z)
    (factor : Qp) : @World Payload Qp :=
  {| self := player events position factor; calls := [] |}.
End Examples.

(** * Properties *)

(** ** Indexing *)

Section indexing.
Context {A : Type}.
Implicit Types (l : list A) (i : Z).

Lemma py_index_inside l i :
  0 ≤ i < Z.of_nat (List.length l) →
  ∃ x, l !! Z.to_nat i = Some x ∧ py_index l i = Return x.
Proof.
  intros Hi. unfold py_index.
  rewrite (bool_decide_eq_false_2 (i < 0)) by lia.
  rewrite bool_decide_eq_true_2 by lia.
  destruct (lookup_lt_is_Some_2 l (Z.to_nat i)) as [x Hx]; [lia|].
  exists x. by rewrite Hx.
Qed.

Lemma py_index_past l i :
  Z.of_nat (List.length l) ≤ i → py_index l i = Raise IndexError.
Proof.
  intros Hi. unfold py_index.
  rewrite (bool_decide_eq_false_2 (i < 0)) by lia.
  by rewrite bool_decide_eq_false_2 by lia.
Qed.

Lemma py_index_last l x :
  last l = Some x → py_index l (-1) = Return x.
Proof.
  intros Hx. rewrite last_lookup in Hx.
  pose proof (lookup_lt_Some _ _ _ Hx) as Hlen.
  unfold py_index. rewrite (bool_decide_eq_true_2 (-1 < 0)) by lia.
  rewrite bool_decide_eq_true_2 by lia.
  replace (Z.to_nat (-1 + Z.of_nat (List.length l)))
    with (Nat.pred (List.length l)) by lia.
  by rewrite Hx.
Qed.
End indexing.

(** ** The bisection loop of [seek] *)

Section bisect_facts.
Context {Payload : Type}.
Implicit Types (events : list (Z * @Event Payload)) (t pos : Z).

Lemma bisect_step events t pos end_ :
  bisect events t pos end_ =
    if decide (pos < end_) then
      match py_index events ((pos + end_) `div` 2) with
      | Raise e => Raise e
      | Return ev =>
          if bool_decide (t > ev.1)
          then bisect events t ((pos + end_) `div` 2 + 1) end_
          else bisect events t pos ((pos + end_) `div` 2)
      end
    else Return pos.
Proof.
  rewrite bisect_unfold_eq at 1. unfold bisect_unfold.
  by destruct (decide (pos < end_)).
Qed.

Lemma midpoint pos end_ :
  pos < end_ → pos ≤ (pos + end_) `div` 2 < end_.
Proof.
  intros H. split.
  - apply Z.div_le_lower_bound; lia.
  - apply Z.div_lt_upper_bound; lia.
Qed.

(** Induction over the iterations of the loop, for a window that lies
    inside the list: every probe [events[mid]] is in range. *)
Lemma bisect_window_ind events t (P : Z → Z → Outcome Z → Prop) :
  (∀ pos end_, ¬ pos < end_ → P pos end_ (Return pos)) →
  (∀ pos end_ mid ev,
      pos ≤ mid < end_ → mid = (pos + end_) `div` 2 →
      events !! Z.to_nat mid = Some ev → t > ev.1 →
      P (mid + 1) end_ (bisect events t (mid + 1) end_) →
      P pos end_ (bisect events t (mid + 1) end_)) →
  (∀ pos end_ mid ev,
      pos ≤ mid < end_ → mid = (pos + end_) `div` 2 →
      events !! Z.to_nat mid = Some ev → ¬ t > ev.1 →
      P pos mid (bisect events t pos mid) →
      P pos end_ (bisect events t pos mid)) →
  ∀ pos end_,
    0 ≤ pos → end_ ≤ Z.of_nat (List.length events) →
    P pos end_ (bisect events t pos end_).
Proof.
  intros Hstop Hup Hdown pos end_.
  remember (Z.to_nat (end_ - pos)) as n eqn:Hn.
  revert pos end_ Hn.
  induction n as [n IH] using lt_wf_ind; intros pos end_ Hn Hpos Hend.
  rewrite bisect_step. destruct (decide (pos < end_)) as [Hlt|Hge].
  - pose proof (midpoint pos end_ Hlt) as Hmid.
    destruct (py_index_inside events ((pos + end_) `div` 2))
      as (ev & Hev & ->); [lia|].
    case_bool_decide as Hcmp.
    + eapply Hup; eauto.
      eapply IH; [|reflexivity|lia|lia]. lia.
    + eapply Hdown; eauto.
      eapply IH; [|reflexivity|lia|lia]. lia.
  - by apply Hstop.
Qed.

(** The loop never indexes outside the list and returns a position
    inside the window it was given. *)
Lemma bisect_returns events t pos end_ :
  0 ≤ pos ≤ end_ → end_ ≤ Z.of_nat (List.length events) →
  ∃ r, bisect events t pos end_ = Return r ∧ pos ≤ r ≤ end_.
Proof.
  intros [Hpos Hle] Hend. revert Hle.
  apply (bisect_window_ind events t
           (λ pos end_ o, pos ≤ end_ →
              ∃ r, o = Return r ∧ pos ≤ r ≤ end_)); [| | |done..].
  - intros p e Hn Hle. exists p. split; [done|lia].
  - intros p e mid ev Hm _ _ _ IH _.
    destruct IH as (r & -> & Hr); [lia|]. exists r. split; [done|lia].
  - intros p e mid ev Hm _ _ _ IH _.
    destruct IH as (r & -> & Hr); [lia|]. exists r. split; [done|lia].
Qed.

(** A time after every timestamp drives the loop to the end of the
    window. *)
Lemma bisect_all_before events t pos end_ :
  (∀ ev, ev ∈ events → ev.1 < t) →
  0 ≤ pos ≤ end_ → end_ ≤ Z.of_nat (List.length events) →
  bisect events t pos end_ = Return end_.
Proof.
  intros Hall [Hpos Hle] Hend. revert Hle.
  apply (bisect_window_ind events t
           (λ pos end_ o, pos ≤ end_ → o = Return end_)); [| | |done..].
  - intros p e Hn Hle. f_equal. lia.
  - intros p e mid ev Hm _ _ _ IH _. apply IH. lia.
  - intros p e mid ev Hm _ Hev Hcmp _ _.
    apply list_elem_of_lookup_2, Hall in Hev. lia.
Qed.

(** A time at or before every timestamp keeps the loop at the start
    of the window. *)
Lemma bisect_all_after events t pos end_ :
  (∀ ev, ev ∈ events → t ≤ ev.1) →
  0 ≤ pos → end_ ≤ Z.of_nat (List.length events) →
  bisect events t pos end_ = Return pos.
Proof.
  intros Hall.
  apply (bisect_window_ind events t (λ pos end_ o, o = Return pos)).
  - done.
  - intros p e mid ev Hm _ Hev Hcmp _.
    apply list_elem_of_lookup_2, Hall in Hev. lia.
  - intros p e mid ev Hm _ _ _ IH. apply IH.
Qed.
End bisect_facts.

(** ** seek *)

Lemma sorted_lookup_lt (l : list Z) (i j : nat) (x y : Z) :
  StronglySorted Z.lt l → (i < j)%nat →
  l !! i = Some x → l !! j = Some y → x < y.
Proof.
  intros Hs. revert i j. induction Hs as [|a l Hs IH Hall]; intros i j Hij Hi Hj.
  - done.
  - destruct j as [|j]; [lia|]. destruct i as [|i]; simpl in *.
    + injection Hi as ->. rewrite Forall_lookup in Hall. by eapply Hall.
    + eapply IH; [|done..]. lia.
Qed.

Section seek_facts.
Context {Payload Tempo : Type}.
Implicit Types (events : list (Z * @Event Payload)) (time pos : Z).
Implicit Types (w : @World Payload Tempo).

Lemma timestamps_lookup_le events (i j : nat) (x y : Z * Event) :
  StronglySorted Z.lt events.*1 → (i ≤ j)%nat →
  events !! i = Some x → events !! j = Some y → x.1 ≤ y.1.
Proof.
  intros Hs Hij Hi Hj. destruct (decide (i = j)) as [->|Hne].
  - rewrite Hi in Hj. injection Hj as ->. lia.
  - apply Z.lt_le_incl.
    eapply (sorted_lookup_lt events.*1 i j); [done|lia|..];
      rewrite list_lookup_fmap; [by rewrite Hi|by rewrite Hj].
Qed.

(** On an ordered list the loop returns the lower bound of [time]
    within its window. *)
Lemma bisect_lower_bound events time pos end_ :
  StronglySorted Z.lt events.*1 →
  0 ≤ pos ≤ end_ → end_ ≤ Z.of_nat (List.length events) →
  (∀ (j : nat) ev, Z.of_nat j < pos → events !! j = Some ev → ev.1 < time) →
  (∀ (j : nat) ev, end_ ≤ Z.of_nat j → events !! j = Some ev → time ≤ ev.1) →
  ∃ r, bisect events time pos end_ = Return r ∧ pos ≤ r ≤ end_ ∧
    (∀ (j : nat) ev, Z.of_nat j < r → events !! j = Some ev → ev.1 < time) ∧
    (∀ (j : nat) ev, r ≤ Z.of_nat j → events !! j = Some ev → time ≤ ev.1).
Proof.
  intros Hs [Hpos Hle] Hend. revert Hle.
  apply (bisect_window_ind events time
    (λ pos end_ o, pos ≤ end_ →
      (∀ (j : nat) ev, Z.of_nat j < pos → events !! j = Some ev → ev.1 < time) →
      (∀ (j : nat) ev, end_ ≤ Z.of_nat j → events !! j = Some ev → time ≤ ev.1) →
      ∃ r, o = Return r ∧ pos ≤ r ≤ end_ ∧
        (∀ (j : nat) ev, Z.of_nat j < r → events !! j = Some ev → ev.1 < time) ∧
        (∀ (j : nat) ev, r ≤ Z.of_nat j → events !! j = Some ev → time ≤ ev.1)));
    [| | |done..].
  - intros p e Hn Hpe Hlo Hhi. exists p. repeat split; [lia..|done|].
    intros j ev Hj. apply Hhi. lia.
  - intros p e mid ev Hm _ Hev Hcmp IH _ Hlo Hhi.
    destruct IH as (r & -> & Hr & Hlo' & Hhi'); [lia| |done|].
    + intros j ev' Hj Hev'.
      pose proof (timestamps_lookup_le events j (Z.to_nat mid) ev' ev Hs
                    ltac:(lia) Hev' Hev).
      lia.
    + exists r. repeat split; [lia..|done|done].
  - intros p e mid ev Hm _ Hev Hcmp IH _ Hlo Hhi.
    destruct IH as (r & -> & Hr & Hlo' & Hhi'); [lia|done| |].
    + intros j ev' Hj Hev'.
      pose proof (timestamps_lookup_le events (Z.to_nat mid) j ev ev' Hs
                    ltac:(lia) Hev Hev').
      lia.
    + exists r. repeat split; [lia..|done|done].
Qed.

(** [seek] with a time of 0 skips the search. *)
Lemma seek_zero w :
  seek 0 w = (Return tt, {| self := assign_position (self w) 0;
                            calls := calls w ++ [set_position 0 0] |}).
Proof. reflexivity. Qed.

(** [seek] with any other time, once the search has returned [pos]
    and [events[pos]] exists. *)
Lemma seek_found w time pos ev :
  time ≠ 0 →
  bisect (_events (self w)) time 0
    (Z.of_nat (List.length (_events (self w)))) = Return pos →
  py_index (_events (self w)) pos = Return ev →
  seek time w =
    (Return tt, {| self := assign_position (self w) pos;
                   calls := calls w ++ [set_position pos (ev.1 - time)] |}).
Proof.
  intros Hne Hb Hi. unfold seek, bind, get, lift. simpl.
  rewrite bool_decide_eq_true_2 by done. by rewrite Hb, Hi.
Qed.

(** A non-zero time after every timestamp makes [seek] index one past
    the end: it raises IndexError before [set_position] is reached,
    so the player is left as it was. *)
Lemma seek_past_end_raises w time :
  time ≠ 0 →
  (∀ ev, ev ∈ _events (self w) → ev.1 < time) →
  seek time w = (Raise IndexError, w).
Proof.
  intros Hne Hall. unfold seek, bind, get, lift. simpl.
  rewrite bool_decide_eq_true_2 by done.
  rewrite bisect_all_before by (done || lia).
  by rewrite py_index_past by lia.
Qed.

(** Whatever [seek] does is decided by the event list and the time:
    two players with the same events either both raise the same
    exception, untouched, or both move to the same position and
    make the same [set_position] call. *)
Lemma seek_ignores_cursor w1 w2 time :
  _events (self w1) = _events (self w2) →
  (∃ e, seek time w1 = (Raise e, w1) ∧ seek time w2 = (Raise e, w2)) ∨
  (∃ pos off,
     seek time w1 = (Return tt, {| self := assign_position (self w1) pos;
                        calls := calls w1 ++ [set_position pos off] |}) ∧
     seek time w2 = (Return tt, {| self := assign_position (self w2) pos;
                        calls := calls w2 ++ [set_position pos off] |})).
Proof.
  intros Heq. unfold seek, bind, get, lift. simpl. rewrite <- Heq.
  case_bool_decide; [|right; by eexists _, _].
  destruct (bisect _ _ _ _) as [pos|e]; [|left; by eexists].
  destruct (py_index _ _) as [ev|e]; [|left; by eexists].
  right. by eexists _, _.
Qed.
End seek_facts.

(** C1 (the code falls short of it): on the timeline with timestamps
    0, 50, 100, [seek(1000)] does not finish at position 3.  The search
    ends with [pos = 3 = len], and [self._events[pos]] raises
    IndexError before [set_position] is called; the cursor keeps its
    position.  On the empty timeline [seek(1)] raises the same way. *)
Theorem seek_beyond_last_raises :
  seek 1000 (Examples.world Examples.events3 0)
    = (Raise IndexError, Examples.world Examples.events3 0) ∧
  seek 1 (Examples.world [] 0) = (Raise IndexError, Examples.world [] 0).
Proof.
  split; apply seek_past_end_raises; try done.
  - intros ev Hev. simpl in Hev. set_unfold in Hev.
    destruct Hev as [->|[->|[->|[]]]]; simpl; lia.
  - intros ev Hev. simpl in Hev. by apply elem_of_nil in Hev.
Qed.

(** C4, as written, fails: on the timeline 0, 50, 100 [seek(-5)] moves
    to position 0 but reports the offset 5, where [seek(0)] reports 0. *)
Lemma seek_negative_counterexample :
  seek (-5) (Examples.world Examples.events3 2)
    = (Return tt, {| self := Examples.player Examples.events3 0 1%Qp;
                     calls := [set_position 0 5] |}) ∧
  seek (-5) (Examples.world Examples.events3 2)
    ≠ seek 0 (Examples.world Examples.events3 2).
Proof. split; [reflexivity|]. intros H. vm_compute in H. discriminate H. Qed.

(** C4, amended: on a non-empty timeline whose timestamps are not
    negative, [seek] with a negative time moves to position 0, as
    [seek(0)] does, and reports as time offset the first timestamp
    minus the time, which is above 0: the negative time is used as it
    is, not replaced by 0. *)
Theorem seek_negative_time {Payload Tempo : Type}
    (w : @World Payload Tempo) (time : Z) (first : Z * Event) :
  time < 0 →
  _events (self w) !! 0%nat = Some first →
  (∀ ev, ev ∈ _events (self w) → 0 ≤ ev.1) →
  seek time w =
    (Return tt, {| self := {| _song := _song (self w);
                              _events := _events (self w);
                              _position := 0;
                              _tempo_factor := _tempo_factor (self w) |};
                   calls := calls w ++ [set_position 0 (first.1 - time)] |}) ∧
  0 < first.1 - time.
Proof.
  intros Hneg Hfirst Hall. split.
  - apply seek_found; [lia| |].
    + apply bisect_all_after; [|lia..].
      intros ev Hev. apply Hall in Hev. lia.
    + pose proof (lookup_lt_Some _ _ _ Hfirst).
      destruct (py_index_inside (_events (self w)) 0) as (x & Hx & ->); [lia|].
      change (Z.to_nat 0) with 0%nat in Hx. congruence.
  - apply list_elem_of_lookup_2, Hall in Hfirst. lia.
Qed.

Lemma seek_negative_time_witness :
  seek (-5) (Examples.world Examples.events3 2) =
    (Return tt,
     {| self := {| _song := _song (self (Examples.world Examples.events3 2));
                   _events := _events (self (Examples.world Examples.events3 2));
                   _position := 0;
                   _tempo_factor := _tempo_factor (self (Examples.world Examples.events3 2)) |};
        calls := [set_position 0 5] |}) ∧
  0 < (Examples.bare 0).1 - -5.
Proof.
  apply (seek_negative_time (Examples.world Examples.events3 2) (-5)
           (Examples.bare 0)).
  - lia.
  - reflexivity.
  - intros ev Hev. simpl in Hev. set_unfold in Hev.
    destruct Hev as [->|[->|[->|[]]]]; simpl; lia.
Defined.

(** C5: on a non-empty timeline in increasing order of timestamps and
    for a time above 0 and at most the last timestamp, [seek] sets the
    position of the cursor to the smallest index whose timestamp is at
    least the time, and reports that timestamp minus the time, which
    is at least 0; [seek(0)] sets the position to 0 and reports 0.
    Nothing else of the player changes. *)
Theorem seek_lower_bound_semantics {Payload Tempo : Type}
    (w : @World Payload Tempo) :
  (seek 0 w =
     (Return tt,
      {| self := {| _song := _song (self w);
                    _events := _events (self w);
                    _position := 0;
                    _tempo_factor := _tempo_factor (self w) |};
         calls := calls w ++ [set_position 0 0] |}) ∧
   _position (self (seek 0 w).2) = 0) ∧
  ∀ (time : Z) (last_ev : Z * Event),
    StronglySorted Z.lt (_events (self w)).*1 →
    last (_events (self w)) = Some last_ev →
    0 < time ≤ last_ev.1 →
    ∃ (i : nat) (ev : Z * Event),
      _events (self w) !! i = Some ev ∧
      time ≤ ev.1 ∧
      (∀ (j : nat) ev', _events (self w) !! j = Some ev' →
                        time ≤ ev'.1 → (i ≤ j)%nat) ∧
      0 ≤ ev.1 - time ∧
      seek time w =
        (Return tt,
         {| self := {| _song := _song (self w);
                       _events := _events (self w);
                       _position := Z.of_nat i;
                       _tempo_factor := _tempo_factor (self w) |};
            calls := calls w ++ [set_position (Z.of_nat i) (ev.1 - time)] |}) ∧
      _position (self (seek time w).2) = Z.of_nat i.
Proof.
  split; [by rewrite seek_zero|].
  intros time last_ev Hs Hlast Htime.
  destruct (bisect_lower_bound (_events (self w)) time 0
              (Z.of_nat (List.length (_events (self w)))) Hs)
    as (r & Hb & Hr & Hlo & Hhi); [lia|lia| | |].
  - intros j ev Hj. lia.
  - intros j ev Hj Hev. apply lookup_lt_Some in Hev. lia.
  - rewrite last_lookup in Hlast.
    pose proof (lookup_lt_Some _ _ _ Hlast) as Hlen.
    assert (r < Z.of_nat (List.length (_events (self w)))) as Hin.
    { destruct (decide (r < Z.of_nat (List.length (_events (self w)))));
        [done|].
      pose proof (Hlo (Nat.pred (List.length (_events (self w)))) last_ev
                    ltac:(lia) Hlast). lia. }
    destruct (py_index_inside (_events (self w)) r) as (ev & Hev & Hidx);
      [lia|].
    pose proof (Hhi (Z.to_nat r) ev ltac:(lia) Hev) as Hge.
    assert (seek time w =
      (Return tt,
       {| self := {| _song := _song (self w);
                     _events := _events (self w);
                     _position := Z.of_nat (Z.to_nat r);
                     _tempo_factor := _tempo_factor (self w) |};
          calls := calls w
                     ++ [set_position (Z.of_nat (Z.to_nat r)) (ev.1 - time)] |}))
      as Hseek.
    { rewrite Z2Nat.id by lia. apply seek_found; [lia|done..]. }
    exists (Z.to_nat r), ev. repeat split; [done|done| |lia|done|].
    + intros j ev' Hj Hge'.
      destruct (decide (Z.to_nat r ≤ j)%nat); [done|].
      pose proof (Hlo j ev' ltac:(lia) Hj). lia.
    + by rewrite Hseek.
Qed.

Lemma seek_lower_bound_semantics_witness :
  seek 30 (Examples.world Examples.events3 0) =
    (Return tt,
     {| self := {| _song := None; _events := Examples.events3;
                   _position := 1; _tempo_factor := 1%Qp |};
        calls := [set_position 1 20] |}) ∧
  _position (self (seek 30 (Examples.world Examples.events3 0)).2) = 1.
Proof.
  destruct (proj2 (seek_lower_bound_semantics
                     (Examples.world Examples.events3 0))
              30 (Examples.bare 100))
    as (i & ev & Hev & Hge & Hmin & _ & Hseek & Hpos).
  - simpl. repeat constructor; lia.
  - reflexivity.
  - simpl. lia.
  - assert (i = 1%nat) as ->.
    { pose proof (Hmin 1%nat (Examples.bare 50) eq_refl ltac:(simpl; lia)).
      destruct i as [|i]; [|lia].
      simpl in Hev. injection Hev as <-. simpl in Hge. lia. }
    simpl in Hev. injection Hev as <-. split; [exact Hseek|exact Hpos].
Defined.

(** C9 (the code falls short of it): two cursors over the timeline
    0, 50, 100, one at position 0 with tempo factor 1, one at position
    2 with tempo factor 2, are both asked to [seek(1000)].  Both raise
    IndexError and report no offset, and each keeps the position it
    had, so they do not end at the same position. *)
Theorem seek_raise_keeps_prior_position :
  seek 1000 (Examples.world_tempo Examples.events3 0 1%Qp)
    = (Raise IndexError, Examples.world_tempo Examples.events3 0 1%Qp) ∧
  seek 1000 (Examples.world_tempo Examples.events3 2 2%Qp)
    = (Raise IndexError, Examples.world_tempo Examples.events3 2 2%Qp) ∧
  _position (self (seek 1000 (Examples.world_tempo Examples.events3 0 1%Qp)).2)
    ≠ _position
        (self (seek 1000 (Examples.world_tempo Examples.events3 2 2%Qp)).2).
Proof.
  assert (∀ ev, ev ∈ Examples.events3 → ev.1 < 1000) as Hall.
  { intros ev Hev. unfold Examples.events3 in Hev. set_unfold in Hev.
    destruct Hev as [->|[->|[->|[]]]]; simpl; lia. }
  rewrite !seek_past_end_raises by done. by repeat split.
Qed.

(** ** total_time and current_time *)

(** C10: at the Finished position of a non-empty timeline,
    [current_time] returns what [total_time] returns, the timestamp of
    the last entry. *)
Theorem current_time_finished {Payload Tempo : Type}
    (p : @Player Payload Tempo) (last_ev : Z * Event) :
  last (_events p) = Some last_ev →
  _position p = Z.of_nat (List.length (_events p)) →
  current_time p = total_time p ∧ total_time p = Return last_ev.1.
Proof.
  intros Hlast Hpos.
  assert (total_time p = Return last_ev.1) as Htotal.
  { unfold total_time. destruct (_events p) as [|x l] eqn:Hev; [done|].
    by rewrite (py_index_last _ _ Hlast). }
  split; [|done]. rewrite Htotal. unfold current_time.
  rewrite last_lookup in Hlast.
  pose proof (lookup_lt_Some _ _ _ Hlast) as Hlen.
  rewrite bool_decide_eq_true_2 by lia.
  destruct (py_index_inside (_events p) (_position p - 1)) as (x & Hx & ->);
    [lia|].
  replace (Z.to_nat (_position p - 1))
    with (Nat.pred (List.length (_events p))) in Hx by lia.
  congruence.
Qed.

Lemma current_time_finished_witness :
  current_time (Examples.player Examples.events3 3 1%Qp)
    = total_time (Examples.player Examples.events3 3 1%Qp) ∧
  total_time (Examples.player Examples.events3 3 1%Qp) = Return 100.
Proof.
  apply (current_time_finished (Examples.player Examples.events3 3 1%Qp)
           (Examples.bare 100)); reflexivity.
Defined.

(** ** next_event *)

Section next_event_facts.
Context {Payload Tempo : Type}.
Variable payload_truthy : Payload → bool.
Implicit Types (w : @World Payload Tempo) (e : @Event Payload).

Lemma handle_event_body_calls time_ e w :
  handle_event_body payload_truthy time_ e w =
    (Return tt, {| self := self w;
                   calls := calls w ++ dispatched payload_truthy time_ e |}).
Proof.
  destruct w as [p cs].
  unfold handle_event_body, dispatched, bind, call, ret.
  destruct e as [[m|] [] [[[[mn b] num] den]|]]; simpl;
    try destruct (payload_truthy m); simpl;
    rewrite <- ?app_assoc, ?app_nil_r; reflexivity.
Qed.

(** In the code the body is never reached: [handle_event] raises
    NameError on its first line, whatever the event. *)
Lemma handle_event_raises time_ e w :
  handle_event payload_truthy time_ e w = (Raise NameError, w).
Proof. reflexivity. Qed.

(** So does [next_event] at every position inside the timeline; the
    position is not advanced and no hook is called. *)
Lemma next_event_active_raises w :
  0 ≤ _position (self w) < Z.of_nat (List.length (_events (self w))) →
  next_event payload_truthy w = (Raise NameError, w).
Proof.
  intros Hpos. unfold next_event, bind, get, lift. simpl.
  rewrite (bool_decide_eq_true_2 (_events (self w) ≠ [])).
  2:{ intros Hnil. rewrite Hnil in Hpos. simpl in Hpos. lia. }
  rewrite bool_decide_eq_true_2 by lia. simpl.
  by destruct (py_index_inside (_events (self w)) (_position (self w)))
    as (ev & _ & ->); [lia|].
Qed.
End next_event_facts.

(** C2 (the code falls short of it): a cursor at position 0 of a
    timeline whose only bundle carries a MIDI payload, a time tick and
    a beat marker.  The bundle should be dispatched as [midi_event],
    [time_event], [beat_event], which is what the body of
    [handle_event] does when run on the event passed in; the code
    raises NameError in [handle_event], calls no hook and does not
    advance. *)
Theorem next_event_dispatches_nothing :
  next_event Examples.payload_truthy (Examples.world Examples.full 0)
    = (Raise NameError, Examples.world Examples.full 0) ∧
  handle_event_body Examples.payload_truthy 0
      {| midi := Some "A"%string; time := true; beat := Some (1, 1, 4, 4) |}
      (Examples.world Examples.full 0)
    = (Return tt,
       {| self := Examples.player Examples.full 0 1%Qp;
          calls := [midi_event "A"%string; time_event 0;
                    beat_event 1 1 4 4] |}).
Proof. split; reflexivity. Qed.

(** C7: at or past the end of the timeline, and on an empty timeline
    at any position, [next_event] returns 0 and leaves the player as
    it is (position, events, tempo factor) without calling any hook. *)
Theorem next_event_finished {Payload Tempo : Type}
    (payload_truthy : Payload → bool) (w : @World Payload Tempo) :
  _events (self w) = [] ∨
    Z.of_nat (List.length (_events (self w))) ≤ _position (self w) →
  next_event payload_truthy w = (Return 0, w).
Proof.
  intros Hend. unfold next_event, bind, get. simpl.
  destruct Hend as [Hnil|Hpast].
  - by rewrite bool_decide_eq_false_2 by (by intros []).
  - rewrite (bool_decide_eq_false_2 (_position _ < _)) by lia.
    by rewrite andb_false_r.
Qed.

Lemma next_event_finished_witness :
  next_event Examples.payload_truthy (Examples.world Examples.events3 3)
    = (Return 0, Examples.world Examples.events3 3).
Proof.
  apply (next_event_finished Examples.payload_truthy
           (Examples.world Examples.events3 3)).
  right. simpl. lia.
Defined.

(** ** seek_measure *)

Section seek_measure_facts.
Context {Payload Tempo : Type}.
Implicit Types (l events : list (Z * @Event Payload)) (e : @Event Payload).
Implicit Types (w : @World Payload Tempo) (measnum t : Z).

Lemma found_nil measnum beat_ (k : nat) :
  ¬ found (@nil (Z * @Event Payload)) measnum beat_ k.
Proof. intros (_ & ev & Hev & _). by rewrite lookup_nil in Hev. Qed.

Lemma found_head t e l measnum beat_ :
  in_measure measnum e → found ((t, e) :: l) measnum beat_ 0.
Proof.
  intros Hin. split; [intros j ev Hj; lia|]. by exists (t, e).
Qed.

Lemma found_head_inv t e l measnum beat_ :
  found ((t, e) :: l) measnum beat_ 0 → in_measure measnum e.
Proof. intros (_ & ev & Hev & Hin). by injection Hev as <-. Qed.

Lemma found_tail t e l measnum beat_ (k : nat) :
  ¬ halts measnum beat_ e →
  found l measnum beat_ k → found ((t, e) :: l) measnum beat_ (S k).
Proof.
  intros Hgo (Hsc & ev & Hev & Hin). split; [|by exists ev].
  intros [|j] ev' Hj Hev'; simpl in Hev'.
  - by injection Hev' as <-.
  - eapply Hsc; [|done]. lia.
Qed.

Lemma found_tail_inv t e l measnum beat_ (k : nat) :
  found ((t, e) :: l) measnum beat_ (S k) →
  ¬ halts measnum beat_ e ∧ found l measnum beat_ k.
Proof.
  intros (Hsc & ev & Hev & Hin). split; [|split].
  - apply (Hsc 0%nat (t, e)); [lia|done].
  - intros j ev' Hj Hev'. apply (Hsc (S j) ev'); [lia|done].
  - by exists ev.
Qed.

(** What the loop leaves in [result] and [position]: the last found
    index if there is one, else the values it started with. *)
Lemma seek_measure_loop_spec l measnum beat_ :
  ∀ (i : Z) (result : bool) (position : option Z),
    (∃ k : nat,
        found l measnum beat_ k ∧
        (∀ j : nat, found l measnum beat_ j → (j ≤ k)%nat) ∧
        seek_measure_loop l i measnum beat_ result position
          = (true, Some (i + Z.of_nat k))) ∨
    ((∀ k : nat, ¬ found l measnum beat_ k) ∧
     seek_measure_loop l i measnum beat_ result position
       = (result, position)).
Proof.
  induction l as [|[t e] l IH]; intros i result position.
  { right. split; [apply found_nil|done]. }
  assert (∀ result' position',
    ¬ halts measnum beat_ e →
    seek_measure_loop l (i + 1) measnum beat_ result' position'
      = seek_measure_loop ((t, e) :: l) i measnum beat_ result position →
    (in_measure measnum e ∧ result' = true ∧ position' = Some i) ∨
    (¬ in_measure measnum e ∧ result' = result ∧ position' = position) →
    (∃ k : nat,
        found ((t, e) :: l) measnum beat_ k ∧
        (∀ j : nat, found ((t, e) :: l) measnum beat_ j → (j ≤ k)%nat) ∧
        seek_measure_loop ((t, e) :: l) i measnum beat_ result position
          = (true, Some (i + Z.of_nat k))) ∨
    ((∀ k : nat, ¬ found ((t, e) :: l) measnum beat_ k) ∧
     seek_measure_loop ((t, e) :: l) i measnum beat_ result position
       = (result, position))) as Hcontinue.
  { intros result' position' Hgo <- Hhead.
    destruct (IH (i + 1) result' position')
      as [(k & Hk & Hmax & ->)|(Hnone & ->)].
    - left. exists (S k). split; [by apply found_tail|]. split.
      + intros [|j] Hj; [lia|].
        apply found_tail_inv in Hj as [_ Hj]. apply Hmax in Hj. lia.
      + do 2 f_equal. lia.
    - destruct Hhead as [(Hin & -> & ->)|(Hout & -> & ->)].
      + left. exists 0%nat. split; [by apply found_head|]. split.
        * intros [|j] Hj; [lia|].
          apply found_tail_inv in Hj as [_ Hj]. by apply Hnone in Hj.
        * do 2 f_equal. lia.
      + right. split; [|done]. intros [|k] Hk.
        * by apply found_head_inv in Hk.
        * apply found_tail_inv in Hk as [_ Hk]. by apply Hnone in Hk. }
  destruct (beat e) as [[[[m b] num] den]|] eqn:Hbeat.
  - destruct (decide (m = measnum)) as [->|Hm].
    + assert (in_measure measnum e) as Hin by (by exists b, num, den).
      destruct (decide (b >= beat_)) as [Hb|Hb].
      * left. exists 0%nat. split; [by apply found_head|]. split.
        -- intros [|j] Hj; [lia|].
           apply found_tail_inv in Hj as [Hgo _]. destruct Hgo.
           exists measnum, b, num, den. split; [done|]. by right.
        -- simpl. rewrite Hbeat. rewrite bool_decide_eq_true_2 by done.
           rewrite bool_decide_eq_true_2 by done. simpl.
           do 2 f_equal. lia.
      * apply (Hcontinue true (Some i)).
        -- intros (m' & b' & num' & den' & Heq & Hstop).
           rewrite Hbeat in Heq. injection Heq as <- <- <- <-. lia.
        -- simpl. rewrite Hbeat. rewrite bool_decide_eq_true_2 by done.
           rewrite bool_decide_eq_false_2 by done. simpl.
           by rewrite bool_decide_eq_false_2 by lia.
        -- by left.
    + assert (¬ in_measure measnum e) as Hout.
      { intros (b' & num' & den' & Heq). rewrite Hbeat in Heq.
        by injection Heq as -> _ _ _. }
      destruct (decide (m > measnum)) as [Hgt|Hle].
      * right. split.
        -- intros [|k] Hk; [by apply found_head_inv in Hk|].
           apply found_tail_inv in Hk as [Hgo _]. destruct Hgo.
           exists m, b, num, den. split; [done|]. by left.
        -- simpl. rewrite Hbeat. rewrite bool_decide_eq_false_2 by done.
           simpl. by rewrite bool_decide_eq_true_2 by done.
      * apply (Hcontinue result position).
        -- intros (m' & b' & num' & den' & Heq & Hstop).
           rewrite Hbeat in Heq. injection Heq as <- <- <- <-. lia.
        -- simpl. rewrite Hbeat. rewrite bool_decide_eq_false_2 by done.
           simpl. by rewrite bool_decide_eq_false_2 by done.
        -- by right.
  - apply (Hcontinue result position).
    + intros (m' & b' & num' & den' & Heq & _). by rewrite Hbeat in Heq.
    + simpl. by rewrite Hbeat.
    + right. split; [|done].
      intros (b' & num' & den' & Heq). by rewrite Hbeat in Heq.
Qed.
End seek_measure_facts.

(** C6: [seek_measure] scans forward, stopping at the first marker
    whose measure is beyond the one asked for or that lies in that
    measure at or after the beat asked for.  If the scan finds a marker
    in the measure, the position of the cursor is set to the last
    index found (with no time offset) and the result is true;
    otherwise the result is false and the player, its position
    included, is unchanged.  In particular the result is false, with
    the position unchanged, when no marker of the timeline is in the
    measure. *)
Theorem seek_measure_tracks_last_match {Payload Tempo : Type}
    (w : @World Payload Tempo) (measnum beat_ : Z) :
  ((∃ k : nat,
       found (_events (self w)) measnum beat_ k ∧
       (∀ j : nat, found (_events (self w)) measnum beat_ j → (j ≤ k)%nat) ∧
       seek_measure measnum beat_ w =
         (Return true,
          {| self := {| _song := _song (self w);
                        _events := _events (self w);
                        _position := Z.of_nat k;
                        _tempo_factor := _tempo_factor (self w) |};
             calls := calls w ++ [set_position (Z.of_nat k) 0] |}) ∧
       _position (self (seek_measure measnum beat_ w).2) = Z.of_nat k) ∨
   ((∀ k : nat, ¬ found (_events (self w)) measnum beat_ k) ∧
    seek_measure measnum beat_ w = (Return false, w) ∧
    _position (self (seek_measure measnum beat_ w).2) = _position (self w))) ∧
  ((∀ ev, ev ∈ _events (self w) → ¬ in_measure measnum ev.2) →
   seek_measure measnum beat_ w = (Return false, w) ∧
   _position (self (seek_measure measnum beat_ w).2) = _position (self w)).
Proof.
  assert ((∀ ev, ev ∈ _events (self w) → ¬ in_measure measnum ev.2) →
          ∀ k : nat, ¬ found (_events (self w)) measnum beat_ k) as Hnone.
  { intros Hout k (_ & ev & Hev & Hin).
    by apply list_elem_of_lookup_2, Hout in Hev. }
  unfold seek_measure, bind, get. simpl.
  destruct (seek_measure_loop_spec (_events (self w)) measnum beat_ 0
              false None) as [(k & Hk & Hmax & ->)|(Hno & ->)].
  - split.
    + left. exists k. by rewrite Z.add_0_l.
    + intros Hout. by apply Hnone in Hk.
  - split; [by right|done].
Qed.

Lemma seek_measure_tracks_last_match_witness :
  (seek_measure 1 3 (Examples.world Examples.beats3 0) =
     (Return true,
      {| self := {| _song := None; _events := Examples.beats3;
                    _position := 1; _tempo_factor := 1%Qp |};
         calls := [set_position 1 0] |}) ∧
   _position
     (self (seek_measure 1 3 (Examples.world Examples.beats3 0)).2) = 1) ∧
  ((∀ ev, ev ∈ Examples.beats3 → ¬ in_measure 5 ev.2) ∧
   seek_measure 5 1 (Examples.world Examples.beats3 2)
     = (Return false, Examples.world Examples.beats3 2) ∧
   _position
     (self (seek_measure 5 1 (Examples.world Examples.beats3 2)).2) = 2).
Proof.
  split.
  - assert (found Examples.beats3 1 3 1) as Hfound1.
    { split.
      - intros j ev Hj Hev (m & b & num & den & Hbeat & Hstop).
        destruct j as [|j]; [|lia]. simpl in Hev. injection Hev as <-.
        simpl in Hbeat. injection Hbeat as <- <- <- <-. lia.
      - exists (Examples.marker 480 1 2 4 4). split; [reflexivity|].
        by exists 2, 4, 4. }
    destruct (proj1 (seek_measure_tracks_last_match
                       (Examples.world Examples.beats3 0) 1 3))
      as [(k & Hk & Hmax & Hret & Hpos)|(Hno & _)].
    + assert (k = 1%nat) as ->.
      { pose proof (Hmax 1%nat Hfound1).
        destruct Hk as (_ & ev & Hev & b & num & den & Hbeat).
        destruct k as [|[|[|k]]]; [lia|done| |done].
        simpl in Hev. injection Hev as <-. discriminate Hbeat. }
      split; [exact Hret|exact Hpos].
    + destruct (Hno 1%nat Hfound1).
  - assert (∀ ev, ev ∈ Examples.beats3 → ¬ in_measure 5 ev.2) as Hout.
    { intros ev Hev (b & num & den & Hbeat).
      unfold Examples.beats3 in Hev.
      repeat (apply elem_of_cons in Hev as [->|Hev]; [discriminate Hbeat|]).
      by apply elem_of_nil in Hev. }
    split; [exact Hout|].
    exact (proj2 (seek_measure_tracks_last_match
                    (Examples.world Examples.beats3 2) 5 1) Hout).
Defined.

(** The three musical seeks of the specification, run on the code. *)
Example seek_measure_1_2 :
  seek_measure 1 2 (Examples.world Examples.beats3 0)
    = (Return true, {| self := Examples.player Examples.beats3 1 1%Qp;
                       calls := [set_position 1 0] |}).
Proof. reflexivity. Qed.

Example seek_measure_1_3 :
  seek_measure 1 3 (Examples.world Examples.beats3 0)
    = (Return true, {| self := Examples.player Examples.beats3 1 1%Qp;
                       calls := [set_position 1 0] |}).
Proof. reflexivity. Qed.

Example seek_measure_5_1 :
  seek_measure 5 1 (Examples.world Examples.beats3 2)
    = (Return false, Examples.world Examples.beats3 2).
Proof. reflexivity. Qed.

(** ** range *)

Lemma elem_of_py_range_up (start stop step t : Z) :
  0 < step →
  t ∈ py_range start stop step ↔
    ∃ i, 0 ≤ i ∧ t = start + step * i ∧ t < stop.
Proof.
  intros Hstep. unfold py_range.
  rewrite bool_decide_eq_true_2 by done.
  rewrite list_elem_of_fmap. setoid_rewrite elem_of_seqZ.
  assert (∀ i, i < (stop - start + step - 1) `div` step
               ↔ start + step * i < stop) as Hcount.
  { intros i. split; intros Hi.
    - destruct (decide (start + step * i < stop)) as [|Hge]; [done|].
      assert ((stop - start + step - 1) `div` step < i + 1); [|lia].
      apply Z.div_lt_upper_bound; lia.
    - assert (i + 1 ≤ (stop - start + step - 1) `div` step); [|lia].
      apply Z.div_le_lower_bound; lia. }
  split.
  - intros (i & -> & Hi). exists i. rewrite <- Hcount. lia.
  - intros (i & Hi & -> & Hlt). exists i. rewrite Hcount. lia.
Qed.

(** ** make_event_list *)

Section event_dict_facts.
Context {Payload : Type}.
Implicit Types (d : gmap Z (@Event Payload)) (t k : Z) (e : @Event Payload).
Implicit Types (song : @Song Payload).

Lemma getitem_insert d k e t :
  getitem (<[k := e]> d) t = if decide (t = k) then e else getitem d t.
Proof.
  unfold getitem. case_decide as Hk.
  - subst. by rewrite lookup_insert_eq.
  - by rewrite lookup_insert_ne.
Qed.

Lemma getitem_empty t : getitem (∅ : gmap Z (@Event Payload)) t = Event_init.
Proof. unfold getitem. by rewrite lookup_empty. Qed.

Lemma getitem_lookup d t e : d !! t = Some e → getitem d t = e.
Proof. unfold getitem. by intros ->. Qed.

(** *** The time flag through the three loops *)

Lemma time_foldl_add_midi (l : list (Z * Payload)) d t :
  time (getitem (foldl add_midi d l) t) = time (getitem d t).
Proof.
  revert d. induction l as [|x l IH]; intros d; simpl; [done|].
  rewrite IH. unfold add_midi. rewrite getitem_insert.
  case_decide; by subst.
Qed.

Lemma time_foldl_add_beat (l : list (Z * Beat)) d t :
  time (getitem (foldl add_beat d l) t) = time (getitem d t).
Proof.
  revert d. induction l as [|x l IH]; intros d; simpl; [done|].
  rewrite IH. unfold add_beat. rewrite getitem_insert.
  case_decide; by subst.
Qed.

Lemma time_foldl_add_time (l : list Z) d t :
  time (getitem (foldl add_time d l) t)
    = bool_decide (t ∈ l) || time (getitem d t).
Proof.
  revert d. induction l as [|x l IH]; intros d; simpl; [done|].
  rewrite IH. unfold add_time. rewrite getitem_insert.
  destruct (decide (t = x)) as [->|Hx].
  - simpl. rewrite orb_true_r.
    by rewrite (bool_decide_eq_true_2 (x ∈ x :: l)) by (apply elem_of_cons; by left).
  - destruct (time (getitem d t)); [by rewrite !orb_true_r|].
    rewrite !orb_false_r. apply bool_decide_ext.
    rewrite elem_of_cons. split; [by right|by intros [?|?]].
Qed.

(** *** The MIDI payload through the three loops *)

Lemma midi_foldl_add_midi (l : list (Z * Payload)) d t :
  t ∈ l.*1 ∨ is_Some (midi (getitem d t)) →
  is_Some (midi (getitem (foldl add_midi d l) t)).
Proof.
  revert d. induction l as [|x l IH]; intros d; simpl.
  { intros [Hin|Hd]; [by apply elem_of_nil in Hin|done]. }
  intros Hin. apply IH. unfold add_midi. rewrite getitem_insert.
  case_decide as Hx; [by right|].
  destruct Hin as [Hin|Hd]; [|by right].
  apply elem_of_cons in Hin as [Hin|Hin]; [done|by left].
Qed.

Lemma midi_foldl_add_time (l : list Z) d t :
  midi (getitem (foldl add_time d l) t) = midi (getitem d t).
Proof.
  revert d. induction l as [|x l IH]; intros d; simpl; [done|].
  rewrite IH. unfold add_time. rewrite getitem_insert.
  case_decide; by subst.
Qed.

Lemma midi_foldl_add_beat (l : list (Z * Beat)) d t :
  midi (getitem (foldl add_beat d l) t) = midi (getitem d t).
Proof.
  revert d. induction l as [|x l IH]; intros d; simpl; [done|].
  rewrite IH. unfold add_beat. rewrite getitem_insert.
  case_decide; by subst.
Qed.

(** *** The beat marker through the last loop *)

Lemma beat_foldl_add_beat (l : list (Z * Beat)) d t :
  t ∈ l.*1 ∨ is_Some (beat (getitem d t)) →
  is_Some (beat (getitem (foldl add_beat d l) t)).
Proof.
  revert d. induction l as [|x l IH]; intros d; simpl.
  { intros [Hin|Hd]; [by apply elem_of_nil in Hin|done]. }
  intros Hin. apply IH. unfold add_beat. rewrite getitem_insert.
  case_decide as Hx; [by right|].
  destruct Hin as [Hin|Hd]; [|by right].
  apply elem_of_cons in Hin as [Hin|Hin]; [done|by left].
Qed.

(** *** The list built from the dictionary *)

Lemma make_event_list_timestamps song (time_ : option Z) (beat_ : bool) :
  (make_event_list song time_ beat_).*1
    = merge_sort Z.le (elements (dom (event_dict song time_ beat_))).
Proof.
  unfold make_event_list. rewrite <- list_fmap_compose.
  apply list_fmap_id.
Qed.

Lemma elem_of_make_event_list song (time_ : option Z) (beat_ : bool) t e :
  (t, e) ∈ make_event_list song time_ beat_
    ↔ event_dict song time_ beat_ !! t = Some e.
Proof.
  unfold make_event_list. rewrite list_elem_of_fmap.
  setoid_rewrite merge_sort_Permutation.
  setoid_rewrite elem_of_elements. setoid_rewrite elem_of_dom.
  split.
  - intros (t' & [= -> ->] & [e' He']). by rewrite (getitem_lookup _ _ _ He').
  - intros He. exists t. by rewrite (getitem_lookup _ _ _ He).
Qed.

(** A bundle that differs from a fresh [Event()] in some field is in
    the dictionary, hence in the list. *)
Lemma getitem_touched d t :
  getitem d t ≠ Event_init → d !! t = Some (getitem d t).
Proof. unfold getitem. by destruct (d !! t). Qed.

Lemma strictly_sorted (l : list Z) :
  StronglySorted Z.le l → NoDup l → StronglySorted Z.lt l.
Proof.
  induction 1 as [|x l Hs IH Hall]; intros Hnd; constructor.
  - apply IH. by apply NoDup_cons in Hnd as [_ ?].
  - apply NoDup_cons in Hnd as [Hx _].
    rewrite Forall_forall in Hall |- *. intros y Hy.
    pose proof (Hall y Hy). assert (x ≠ y) by (by intros ->). lia.
Qed.
End event_dict_facts.

(** C8: whatever the song, the time interval and the beat flag, the
    timestamps of the list built by [make_event_list] increase strictly
    and none occurs twice.  Every contribution is in the one bundle of
    its timestamp: a MIDI payload of the song, a time tick of the
    range, a beat of the song each find a bundle at their timestamp
    with that field set. *)
Theorem make_event_list_strictly_increasing {Payload : Type}
    (song : @Song Payload) (time_ : option Z) (beat_ : bool) :
  StronglySorted Z.lt (make_event_list song time_ beat_).*1 ∧
  NoDup (make_event_list song time_ beat_).*1 ∧
  (∀ t evs, (t, evs) ∈ music song →
     ∃ e, (t, e) ∈ make_event_list song time_ beat_ ∧ is_Some (midi e)) ∧
  (∀ step t, time_ = Some step → step ≠ 0 →
     t ∈ py_range 0 (length song + 1) step →
     ∃ e, (t, e) ∈ make_event_list song time_ beat_ ∧ time e = true) ∧
  (∀ t b, beat_ = true → (t, b) ∈ beats song →
     ∃ e, (t, e) ∈ make_event_list song time_ beat_ ∧ is_Some (beat e)).
Proof.
  assert (NoDup (make_event_list song time_ beat_).*1) as Hnd.
  { rewrite make_event_list_timestamps, merge_sort_Permutation.
    apply NoDup_elements. }
  split; [|split; [done|]].
  { apply strictly_sorted; [|done]. rewrite make_event_list_timestamps.
    apply (StronglySorted_merge_sort Z.le). }
  set (d := event_dict song time_ beat_).
  assert (∀ t, getitem d t ≠ Event_init →
               ∃ e, (t, e) ∈ make_event_list song time_ beat_ ∧
                    e = getitem d t) as Hin.
  { intros t Ht. exists (getitem d t). split; [|done].
    apply elem_of_make_event_list. by apply getitem_touched. }
  split; [|split].
  - intros t evs Hmusic.
    assert (is_Some (midi (getitem d t))) as Hmidi.
    { unfold d, event_dict.
      assert (is_Some (midi (getitem (foldl add_midi ∅ (music song)) t)))
        as H0.
      { apply midi_foldl_add_midi. left.
        apply list_elem_of_fmap. by exists (t, evs). }
      destruct beat_; [rewrite midi_foldl_add_beat|];
        (destruct time_ as [step|]; [case_bool_decide|]);
        by rewrite ?midi_foldl_add_time. }
    destruct (Hin t) as (e & He & ->); [|by exists (getitem d t)].
    intros Heq. rewrite Heq in Hmidi. by destruct Hmidi.
  - intros step t -> Hstep Hrange.
    assert (time (getitem d t) = true) as Htime.
    { unfold d, event_dict. rewrite bool_decide_eq_true_2 by done.
      destruct beat_; [rewrite time_foldl_add_beat|];
        rewrite time_foldl_add_time;
        by rewrite bool_decide_eq_true_2 by done. }
    destruct (Hin t) as (e & He & ->); [|by exists (getitem d t)].
    intros Heq. by rewrite Heq in Htime.
  - intros t b -> Hbeats.
    assert (is_Some (beat (getitem d t))) as Hbeat.
    { unfold d, event_dict. apply beat_foldl_add_beat. left.
      apply list_elem_of_fmap. by exists (t, b). }
    destruct (Hin t) as (e & He & ->); [|by exists (getitem d t)].
    intros Heq. rewrite Heq in Hbeat. by destruct Hbeat.
Qed.

Lemma make_event_list_strictly_increasing_witness :
  (∃ e, (0, e) ∈ make_event_list Examples.song (Some 50) true ∧
        is_Some (midi e)) ∧
  (∃ e, (50, e) ∈ make_event_list Examples.song (Some 50) true ∧
        time e = true) ∧
  (∃ e, (0, e) ∈ make_event_list Examples.song (Some 50) true ∧
        is_Some (beat e)).
Proof.
  pose proof (make_event_list_strictly_increasing Examples.song (Some 50) true)
    as (_ & _ & Hmidi & Htime & Hbeat).
  split; [|split].
  - apply (Hmidi 0 "A"%string). simpl. apply elem_of_cons. by left.
  - apply (Htime 50 50); [done|done|].
    apply elem_of_py_range_up; [lia|]. exists 1. simpl. lia.
  - apply (Hbeat 0 (1, 1, 4, 4)); [done|]. simpl. apply elem_of_cons. by left.
Defined.

Section time_tick_facts.
Context {Payload : Type}.
Implicit Types (song : @Song Payload) (t step : Z).

(** With a non-zero interval, the bundle of a timestamp has its time
    flag set exactly when the timestamp is in the range of the
    second loop. *)
Lemma time_event_dict song step (beat_ : bool) t :
  step ≠ 0 →
  time (getitem (event_dict song (Some step) beat_) t)
    = bool_decide (t ∈ py_range 0 (length song + 1) step).
Proof.
  intros Hstep. unfold event_dict. rewrite bool_decide_eq_true_2 by done.
  destruct beat_; [rewrite time_foldl_add_beat|];
    rewrite time_foldl_add_time, time_foldl_add_midi, getitem_empty;
    apply orb_false_r.
Qed.

Lemma time_tick_in_list song step (beat_ : bool) t :
  step ≠ 0 →
  (∃ e, (t, e) ∈ make_event_list song (Some step) beat_ ∧ time e = true)
    ↔ t ∈ py_range 0 (length song + 1) step.
Proof.
  intros Hstep.
  pose proof (time_event_dict song step beat_ t Hstep) as Htime.
  split.
  - intros (e & He & Ht). apply elem_of_make_event_list in He.
    rewrite (getitem_lookup _ _ _ He), Ht in Htime.
    symmetry in Htime. by apply bool_decide_eq_true in Htime.
  - intros Hin. rewrite bool_decide_eq_true_2 in Htime by done.
    exists (getitem (event_dict song (Some step) beat_) t).
    split; [|done]. apply elem_of_make_event_list, getitem_touched.
    intros Heq. by rewrite Heq in Htime.
Qed.
End time_tick_facts.

(** C3, as written, fails: for the song of length 100 with MIDI at 0
    and at 100 and an interval of 30, the list has time ticks at 0,
    30, 60 and 90; the bundle at 100, the length of the song, has the
    MIDI payload but no time tick. *)
Lemma final_tick_counterexample :
  make_event_list Examples.song (Some 30) true =
    [(0, {| midi := Some "A"%string; time := true;
            beat := Some (1, 1, 4, 4) |});
     (30, {| midi := None; time := true; beat := None |});
     (60, {| midi := None; time := true; beat := None |});
     (90, {| midi := None; time := true; beat := None |});
     (100, {| midi := Some "B"%string; time := false; beat := None |})] ∧
  ¬ ∃ e, (100, e) ∈ make_event_list Examples.song (Some 30) true ∧
         time e = true.
Proof.
  assert (make_event_list Examples.song (Some 30) true =
    [(0, {| midi := Some "A"%string; time := true;
            beat := Some (1, 1, 4, 4) |});
     (30, {| midi := None; time := true; beat := None |});
     (60, {| midi := None; time := true; beat := None |});
     (90, {| midi := None; time := true; beat := None |});
     (100, {| midi := Some "B"%string; time := false; beat := None |})])
    as Heq by (vm_compute; reflexivity).
  split; [done|]. rewrite Heq. intros (e & He & Ht).
  repeat (apply elem_of_cons in He as [He|He]; [by simplify_eq/=|]).
  by apply elem_of_nil in He.
Qed.

(** C3, amended: for every song and every interval above 0, the
    bundles with a time tick are exactly those at the multiples of the
    interval from 0 up to the length of the song, whether or not a
    MIDI event occurs there.  So there is one at 0 when the length is
    not negative, and there is one at the length of the song exactly
    when that length is a non-negative multiple of the interval. *)
Theorem make_event_list_time_ticks {Payload : Type}
    (song : @Song Payload) (step : Z) (beat_ : bool) :
  0 < step →
  (∀ t, (∃ e, (t, e) ∈ make_event_list song (Some step) beat_ ∧
              time e = true)
        ↔ ∃ k, 0 ≤ k ∧ t = step * k ∧ t ≤ length song) ∧
  (0 ≤ length song →
   ∃ e, (0, e) ∈ make_event_list song (Some step) beat_ ∧ time e = true) ∧
  ((∃ e, (length song, e) ∈ make_event_list song (Some step) beat_ ∧
         time e = true)
   ↔ 0 ≤ length song ∧ (step | length song)).
Proof.
  intros Hstep.
  assert (∀ t, (∃ e, (t, e) ∈ make_event_list song (Some step) beat_ ∧
                     time e = true)
               ↔ ∃ k, 0 ≤ k ∧ t = step * k ∧ t ≤ length song) as Hticks.
  { intros t. rewrite time_tick_in_list by lia.
    rewrite elem_of_py_range_up by done.
    split; intros (k & Hk & -> & Hle); exists k; lia. }
  split; [done|split].
  - intros Hlen. apply Hticks. exists 0. lia.
  - rewrite Hticks. split.
    + intros (k & Hk & Heq & _). split; [lia|]. exists k. lia.
    + intros (Hlen & k & Heq). exists k. nia.
Qed.

Lemma make_event_list_time_ticks_witness :
  0 < 50 ∧
  ∃ e, (100, e) ∈ make_event_list Examples.song (Some 50) true ∧
       time e = true.
Proof.
  split; [lia|].
  apply (proj2 (proj2 (make_event_list_time_ticks Examples.song 50 true
                         ltac:(lia)))).
  split; [simpl; lia|]. exists 2. reflexivity.
Defined.

(** The merge example of the specification, run on the code. *)
Example make_event_list_merge :
  make_event_list Examples.song (Some 50) true =
    [(0, {| midi := Some "A"%string; time := true;
            beat := Some (1, 1, 4, 4) |});
     (50, {| midi := None; time := true; beat := None |});
     (100, {| midi := Some "B"%string; time := true; beat := None |})].
Proof. vm_compute. reflexivity. Qed.


(** * Further properties of the code *)

(** ** seek: when it raises, where it lands *)

Section seek_outcomes.
Context {Payload Tempo : Type}.
Implicit Types (events : list (Z * @Event Payload)) (time pos : Z).
Implicit Types (w : @World Payload Tempo).

(** The two ways a [seek] with a non-zero time can end: the search
    stops inside the list and the cursor moves there, or it stops at
    the length of the list and the indexing that follows raises. *)
Lemma seek_nonzero_cases w time :
  time ≠ 0 →
  ∃ r : nat,
    bisect (_events (self w)) time 0
      (Z.of_nat (List.length (_events (self w)))) = Return (Z.of_nat r) ∧
    ((r = List.length (_events (self w)) ∧
      seek time w = (Raise IndexError, w)) ∨
     (∃ ev, _events (self w) !! r = Some ev ∧
        seek time w =
          (Return tt,
           {| self := assign_position (self w) (Z.of_nat r);
              calls := calls w
                         ++ [set_position (Z.of_nat r) (ev.1 - time)] |}))).
Proof.
  intros Hne.
  destruct (bisect_returns (_events (self w)) time 0
              (Z.of_nat (List.length (_events (self w)))))
    as (r & Hb & Hr); [lia..|].
  exists (Z.to_nat r). rewrite Z2Nat.id by lia. split; [done|].
  destruct (decide (r = Z.of_nat (List.length (_events (self w)))))
    as [Hlen|Hlen].
  - left. split; [lia|]. unfold seek, bind, get, lift. simpl.
    rewrite bool_decide_eq_true_2 by done. rewrite Hb.
    by rewrite py_index_past by lia.
  - right.
    destruct (py_index_inside (_events (self w)) r) as (ev & Hev & Hidx);
      [lia|].
    exists ev. split; [done|]. by apply seek_found.
Qed.

(** On an ordered list the index the search stops at splits the
    timestamps: those before it are below the time, those from it on
    are at least the time. *)
Lemma bisect_splits events time (r : nat) :
  StronglySorted Z.lt events.*1 →
  bisect events time 0 (Z.of_nat (List.length events))
    = Return (Z.of_nat r) →
  (∀ (j : nat) ev, (j < r)%nat → events !! j = Some ev → ev.1 < time) ∧
  (∀ (j : nat) ev, (r ≤ j)%nat → events !! j = Some ev → time ≤ ev.1).
Proof.
  intros Hs Hb.
  destruct (bisect_lower_bound events time 0
              (Z.of_nat (List.length events)) Hs)
    as (r' & Hb' & Hr & Hlo & Hhi); [lia|lia| | |].
  - intros j ev Hj. lia.
  - intros j ev Hj Hev. apply lookup_lt_Some in Hev. lia.
  - rewrite Hb in Hb'. injection Hb' as <-. split.
    + intros j ev Hj. apply Hlo. lia.
    + intros j ev Hj. apply Hhi. lia.
Qed.
End seek_outcomes.

(** X1: [seek] either raises IndexError and leaves the player and the
    record of calls as they were, or it returns having changed only the
    position, with one [set_position] call recorded; the new position
    is never negative nor beyond the length of the list, and after a
    non-zero time it is the index of an entry. *)
Theorem seek_raises_or_moves_in_range {Payload Tempo : Type}
    (w : @World Payload Tempo) (time : Z) :
  seek time w = (Raise IndexError, w) ∨
  ∃ pos off,
    seek time w =
      (Return tt, {| self := {| _song := _song (self w);
                                _events := _events (self w);
                                _position := pos;
                                _tempo_factor := _tempo_factor (self w) |};
                     calls := calls w ++ [set_position pos off] |}) ∧
    0 ≤ pos ≤ Z.of_nat (List.length (_events (self w))) ∧
    (time ≠ 0 → pos < Z.of_nat (List.length (_events (self w)))).
Proof.
  destruct (decide (time = 0)) as [->|Hne].
  - right. exists 0, 0. split; [apply seek_zero|]. split; [lia|done].
  - destruct (seek_nonzero_cases w time Hne)
      as (r & _ & [[_ Hraise]|(ev & Hev & Hret)]); [by left|].
    right. exists (Z.of_nat r), (ev.1 - time). split; [done|].
    apply lookup_lt_Some in Hev. lia.
Qed.

(** X2: on a list in increasing order of timestamps, [seek] raises
    IndexError exactly when the time is not 0 and lies after every
    timestamp of the list (on an empty list: for every non-zero
    time). *)
Theorem seek_raises_iff {Payload Tempo : Type}
    (w : @World Payload Tempo) (time : Z) :
  StronglySorted Z.lt (_events (self w)).*1 →
  seek time w = (Raise IndexError, w)
    ↔ time ≠ 0 ∧ ∀ ev, ev ∈ _events (self w) → ev.1 < time.
Proof.
  intros Hs. split.
  - intros Hraise. destruct (decide (time = 0)) as [->|Hne].
    { by rewrite seek_zero in Hraise. }
    split; [done|].
    destruct (seek_nonzero_cases w time Hne)
      as (r & Hb & [[Hr _]|(ev & _ & Hret)]).
    + intros ev Hev. apply list_elem_of_lookup in Hev as [j Hj].
      pose proof (lookup_lt_Some _ _ _ Hj).
      apply (proj1 (bisect_splits _ _ _ Hs Hb) j ev); [lia|done].
    + by rewrite Hret in Hraise.
  - intros [Hne Hall]. by apply seek_past_end_raises.
Qed.

Lemma seek_raises_iff_witness :
  seek 101 (Examples.world Examples.events3 1)
    = (Raise IndexError, Examples.world Examples.events3 1)
    ↔ 101 ≠ 0 ∧ ∀ ev, ev ∈ Examples.events3 → ev.1 < 101.
Proof.
  apply (seek_raises_iff (Examples.world Examples.events3 1) 101).
  simpl. repeat constructor; lia.
Defined.

(** X3: on a list in increasing order of timestamps, seeking to the
    timestamp of an entry, when that timestamp is not 0, moves the
    cursor to that entry and reports the offset 0. *)
Theorem seek_exact_timestamp {Payload Tempo : Type}
    (w : @World Payload Tempo) (i : nat) (ev : Z * Event) :
  StronglySorted Z.lt (_events (self w)).*1 →
  _events (self w) !! i = Some ev →
  ev.1 ≠ 0 →
  seek ev.1 w =
    (Return tt, {| self := {| _song := _song (self w);
                              _events := _events (self w);
                              _position := Z.of_nat i;
                              _tempo_factor := _tempo_factor (self w) |};
                   calls := calls w ++ [set_position (Z.of_nat i) 0] |}).
Proof.
  intros Hs Hi Hne.
  destruct (seek_nonzero_cases w ev.1 Hne)
    as (r & Hb & [[Hr _]|(ev' & Hev' & ->)]).
  - destruct (bisect_splits _ _ _ Hs Hb) as [Hlo _].
    apply lookup_lt_Some in Hi as Hlt.
    pose proof (Hlo i ev ltac:(lia) Hi). lia.
  - destruct (bisect_splits _ _ _ Hs Hb) as [Hlo Hhi].
    assert (r = i) as ->.
    { destruct (decide (r = i)) as [|Hneq]; [done|].
      destruct (decide (i < r)%nat).
      - pose proof (Hlo i ev ltac:(lia) Hi). lia.
      - pose proof (Hhi r ev' ltac:(lia) Hev').
        pose proof (sorted_lookup_lt (_events (self w)).*1 r i ev'.1 ev.1 Hs
                      ltac:(lia)) as Hlt.
        rewrite !list_lookup_fmap, Hev', Hi in Hlt.
        specialize (Hlt eq_refl eq_refl). lia. }
    rewrite Hi in Hev'. injection Hev' as <-.
    by rewrite Z.sub_diag.
Qed.

Lemma seek_exact_timestamp_witness :
  seek 50 (Examples.world Examples.events3 0) =
    (Return tt,
     {| self := {| _song := _song (self (Examples.world Examples.events3 0));
                   _events := _events (self (Examples.world Examples.events3 0));
                   _position := 1;
                   _tempo_factor := _tempo_factor (self (Examples.world Examples.events3 0)) |};
        calls := [set_position 1 0] |}).
Proof.
  apply (seek_exact_timestamp (Examples.world Examples.events3 0) 1
           (Examples.bare 50)).
  - simpl. repeat constructor; lia.
  - reflexivity.
  - simpl. lia.
Defined.

Lemma seek_position_nonneg {Payload Tempo : Type}
    (w w' : @World Payload Tempo) (time : Z) :
  seek time w = (Return tt, w') → 0 ≤ _position (self w').
Proof.
  intros Hseek. destruct (decide (time = 0)) as [->|Hne].
  - rewrite seek_zero in Hseek. by injection Hseek as <-.
  - destruct (seek_nonzero_cases w time Hne)
      as (r & _ & [[_ Hraise]|(ev & _ & Hret)]).
    + by rewrite Hraise in Hseek.
    + rewrite Hret in Hseek. injection Hseek as <-. simpl. lia.
Qed.

(** X4: on a list in increasing order of timestamps, none of them
    negative, [seek] is monotone: of two seeks that both return, the
    one with the later time does not land before the other. *)
Theorem seek_monotone {Payload Tempo : Type}
    (w w1 w2 : @World Payload Tempo) (time1 time2 : Z) :
  StronglySorted Z.lt (_events (self w)).*1 →
  (∀ ev, ev ∈ _events (self w) → 0 ≤ ev.1) →
  time1 ≤ time2 →
  seek time1 w = (Return tt, w1) →
  seek time2 w = (Return tt, w2) →
  _position (self w1) ≤ _position (self w2).
Proof.
  intros Hs Hnonneg Hle H1 H2.
  assert (∀ time w', time ≤ 0 → seek time w = (Return tt, w') →
                     _position (self w') = 0) as Hlow.
  { intros time w' Htime Hseek.
    destruct (decide (time = 0)) as [->|Hne].
    - rewrite seek_zero in Hseek. by injection Hseek as <-.
    - destruct (seek_nonzero_cases w time Hne)
        as (r & Hb & [[_ Hraise]|(ev & Hev & Hret)]).
      { by rewrite Hraise in Hseek. }
      rewrite bisect_all_after in Hb; [|intros x Hx; apply Hnonneg in Hx|..];
        [|lia..].
      injection Hb as Hr. rewrite Hret in Hseek. injection Hseek as <-.
      simpl. lia. }
  destruct (decide (time1 ≤ 0)) as [Hneg|Hpos1].
  - rewrite (Hlow time1 w1 Hneg H1). by eapply seek_position_nonneg.
  - destruct (seek_nonzero_cases w time1 ltac:(lia))
      as (r1 & Hb1 & [[_ Hraise]|(ev1 & Hev1 & Hret1)]).
    { by rewrite Hraise in H1. }
    destruct (seek_nonzero_cases w time2 ltac:(lia))
      as (r2 & Hb2 & [[_ Hraise]|(ev2 & Hev2 & Hret2)]).
    { by rewrite Hraise in H2. }
    rewrite Hret1 in H1. injection H1 as <-.
    rewrite Hret2 in H2. injection H2 as <-. simpl.
    destruct (bisect_splits _ _ _ Hs Hb1) as [Hlo1 _].
    destruct (bisect_splits _ _ _ Hs Hb2) as [_ Hhi2].
    destruct (decide (r1 ≤ r2)%nat); [lia|].
    pose proof (Hlo1 r2 ev2 ltac:(lia) Hev2).
    pose proof (Hhi2 r2 ev2 ltac:(lia) Hev2). lia.
Qed.

Lemma seek_monotone_witness :
  _position (self (seek 30 (Examples.world Examples.events3 0)).2)
    ≤ _position (self (seek 60 (Examples.world Examples.events3 0)).2).
Proof.
  apply (seek_monotone (Examples.world Examples.events3 0)
           (seek 30 (Examples.world Examples.events3 0)).2
           (seek 60 (Examples.world Examples.events3 0)).2 30 60).
  - simpl. repeat constructor; lia.
  - intros ev Hev. simpl in Hev.
    repeat (apply elem_of_cons in Hev as [->|Hev]; [simpl; lia|]).
    by apply elem_of_nil in Hev.
  - lia.
  - reflexivity.
  - reflexivity.
Defined.

(** ** current_time and total_time *)

Section time_queries.
Context {Payload Tempo : Type}.
Implicit Types (p : @Player Payload Tempo).

Lemma current_time_at p (i : nat) (ev : Z * Event) :
  _position p = Z.of_nat (S i) →
  _events p !! i = Some ev →
  current_time p = Return ev.1.
Proof.
  intros Hpos Hev. unfold current_time.
  pose proof (lookup_lt_Some _ _ _ Hev).
  rewrite bool_decide_eq_true_2 by lia.
  destruct (py_index_inside (_events p) (_position p - 1)) as (x & Hx & ->);
    [lia|].
  replace (Z.to_nat (_position p - 1)) with i in Hx by lia. congruence.
Qed.

Lemma current_time_start p : _position p ≤ 0 → current_time p = Return 0.
Proof.
  intros Hpos. unfold current_time. by rewrite bool_decide_eq_false_2 by lia.
Qed.

Lemma total_time_last p (ev : Z * Event) :
  last (_events p) = Some ev → total_time p = Return ev.1.
Proof.
  intros Hlast. unfold total_time.
  destruct (_events p) as [|x l] eqn:Hev; [done|].
  by rewrite (py_index_last _ _ Hlast).
Qed.

Lemma last_of_nonempty {A : Type} (l : list A) : l ≠ [] → is_Some (last l).
Proof.
  intros Hne. rewrite last_lookup. apply lookup_lt_is_Some.
  destruct l; [done|]. simpl. lia.
Qed.
End time_queries.

(** X5: [current_time] returns 0 at a position of 0 or below, the
    timestamp of the entry before the cursor at a position from 1 to
    the length of the list, and raises IndexError at any position
    beyond the length. *)
Theorem current_time_by_position {Payload Tempo : Type}
    (p : @Player Payload Tempo) :
  (_position p ≤ 0 → current_time p = Return 0) ∧
  (∀ (i : nat) ev, _position p = Z.of_nat (S i) →
     _events p !! i = Some ev → current_time p = Return ev.1) ∧
  (Z.of_nat (List.length (_events p)) < _position p →
   current_time p = Raise IndexError).
Proof.
  split; [apply current_time_start|]. split; [apply current_time_at|].
  intros Hpos. unfold current_time.
  rewrite bool_decide_eq_true_2 by lia.
  by rewrite py_index_past by lia.
Qed.

Lemma current_time_by_position_witness :
  current_time (Examples.player Examples.events3 2 1%Qp) = Return 50 ∧
  current_time (Examples.player Examples.events3 4 1%Qp) = Raise IndexError.
Proof.
  split.
  - apply (proj1 (proj2 (current_time_by_position
                           (Examples.player Examples.events3 2 1%Qp)))
             1%nat (Examples.bare 50)); reflexivity.
  - apply (proj2 (proj2 (current_time_by_position
                           (Examples.player Examples.events3 4 1%Qp)))).
    simpl. lia.
Defined.

(** X6: [total_time] never raises.  It returns 0 on an empty list and
    the timestamp of the last entry otherwise, which on a list in
    increasing order of timestamps is the greatest timestamp. *)
Theorem total_time_greatest {Payload Tempo : Type}
    (p : @Player Payload Tempo) :
  ∃ z, total_time p = Return z ∧
       (_events p = [] → z = 0) ∧
       (∀ ev, last (_events p) = Some ev → z = ev.1) ∧
       (StronglySorted Z.lt (_events p).*1 →
        ∀ ev, ev ∈ _events p → ev.1 ≤ z).
Proof.
  destruct (_events p) as [|x l] eqn:Hev.
  - exists 0. unfold total_time. rewrite Hev. split; [done|].
    split; [done|]. split; [done|]. intros _ ev Hin.
    by apply elem_of_nil in Hin.
  - destruct (last_of_nonempty (x :: l)) as [lst Hlast]; [done|].
    exists lst.1. rewrite <- Hev in Hlast.
    split; [by apply total_time_last|]. rewrite Hev in Hlast.
    split; [done|]. split; [intros ev; rewrite Hlast; congruence|].
    intros Hs ev Hin. apply list_elem_of_lookup in Hin as [j Hj].
    rewrite last_lookup in Hlast.
    pose proof (lookup_lt_Some _ _ _ Hj).
    eapply (timestamps_lookup_le (x :: l) j); [done| |done..]. lia.
Qed.

Lemma total_time_greatest_witness :
  ∃ z, total_time (Examples.player Examples.events3 0 1%Qp) = Return z ∧
       ∀ ev, ev ∈ Examples.events3 → ev.1 ≤ z.
Proof.
  destruct (total_time_greatest (Examples.player Examples.events3 0 1%Qp))
    as (z & Hz & _ & _ & Hmax).
  exists z. split; [exact Hz|]. apply Hmax.
  simpl. repeat constructor; lia.
Defined.

(** X7: on a list in increasing order of timestamps, none of them
    negative, and at any position from 0 to the length of the list,
    [current_time] and [total_time] both return and the current time
    is not after the total time. *)
Theorem current_time_le_total_time {Payload Tempo : Type}
    (p : @Player Payload Tempo) :
  StronglySorted Z.lt (_events p).*1 →
  (∀ ev, ev ∈ _events p → 0 ≤ ev.1) →
  0 ≤ _position p ≤ Z.of_nat (List.length (_events p)) →
  ∃ c z, current_time p = Return c ∧ total_time p = Return z ∧ c ≤ z.
Proof.
  intros Hs Hnonneg Hpos.
  destruct (decide (_events p = [])) as [Hnil|Hne].
  - exists 0, 0. rewrite Hnil in Hpos. simpl in Hpos.
    split; [apply current_time_start; lia|].
    split; [|done]. unfold total_time. by rewrite Hnil.
  - destruct (last_of_nonempty _ Hne) as [lst Hlast].
    destruct (decide (_position p = 0)) as [H0|Hpos'].
    + exists 0, lst.1. split; [apply current_time_start; lia|].
      split; [by apply total_time_last|].
      rewrite last_lookup in Hlast.
      by apply list_elem_of_lookup_2, Hnonneg in Hlast.
    + destruct (lookup_lt_is_Some_2 (_events p) (Z.to_nat (_position p - 1)))
        as [ev Hev]; [lia|].
      exists ev.1, lst.1.
      split; [apply (current_time_at p (Z.to_nat (_position p - 1))); [lia|done]|].
      split; [by apply total_time_last|].
      rewrite last_lookup in Hlast.
      eapply (timestamps_lookup_le (_events p)); [done| |done..]. lia.
Qed.

Lemma current_time_le_total_time_witness :
  ∃ c z, current_time (Examples.player Examples.events3 2 1%Qp) = Return c ∧
         total_time (Examples.player Examples.events3 2 1%Qp) = Return z ∧
         c ≤ z.
Proof.
  apply (current_time_le_total_time (Examples.player Examples.events3 2 1%Qp)).
  - simpl. repeat constructor; lia.
  - intros ev Hev. simpl in Hev.
    repeat (apply elem_of_cons in Hev as [->|Hev]; [simpl; lia|]).
    by apply elem_of_nil in Hev.
  - simpl. lia.
Defined.

(** X8: on a list in increasing order of timestamps, after a [seek]
    with a time above 0 that returns, [current_time] returns a time
    strictly before the time sought: the entry the cursor stands on,
    and whatever follows, has not been played. *)
Theorem current_time_after_seek {Payload Tempo : Type}
    (w w' : @World Payload Tempo) (time : Z) :
  StronglySorted Z.lt (_events (self w)).*1 →
  0 < time →
  seek time w = (Return tt, w') →
  ∃ c, current_time (self w') = Return c ∧ c < time.
Proof.
  intros Hs Htime Hseek.
  destruct (seek_nonzero_cases w time ltac:(lia))
    as (r & Hb & [[_ Hraise]|(ev & Hev & Hret)]).
  { by rewrite Hraise in Hseek. }
  rewrite Hret in Hseek. injection Hseek as <-.
  destruct r as [|i].
  - exists 0. split; [by apply current_time_start|done].
  - destruct (lookup_lt_is_Some_2 (_events (self w)) i) as [prev Hprev].
    { apply lookup_lt_Some in Hev. lia. }
    exists prev.1. split.
    + by apply (current_time_at _ i).
    + apply (proj1 (bisect_splits _ _ _ Hs Hb) i prev); [lia|done].
Qed.

Lemma current_time_after_seek_witness :
  ∃ c, current_time (self (seek 60 (Examples.world Examples.events3 0)).2)
         = Return c ∧ c < 60.
Proof.
  apply (current_time_after_seek (Examples.world Examples.events3 0)
           (seek 60 (Examples.world Examples.events3 0)).2 60).
  - simpl. repeat constructor; lia.
  - lia.
  - reflexivity.
Defined.

(** ** next_event: what it never does *)

Section negative_index.
Context {A : Type}.
Implicit Types (l : list A) (i : Z).

Lemma py_index_wraps l i :
  - Z.of_nat (List.length l) ≤ i < 0 →
  ∃ x, l !! Z.to_nat (i + Z.of_nat (List.length l)) = Some x ∧
       py_index l i = Return x.
Proof.
  intros Hi. unfold py_index.
  rewrite (bool_decide_eq_true_2 (i < 0)) by lia.
  rewrite bool_decide_eq_true_2 by lia.
  destruct (lookup_lt_is_Some_2 l (Z.to_nat (i + Z.of_nat (List.length l))))
    as [x Hx]; [lia|].
  exists x. by rewrite Hx.
Qed.

Lemma py_index_below l i :
  i < - Z.of_nat (List.length l) → py_index l i = Raise IndexError.
Proof.
  intros Hi. unfold py_index.
  rewrite (bool_decide_eq_true_2 (i < 0)) by lia.
  by rewrite bool_decide_eq_false_2 by lia.
Qed.
End negative_index.

(** X9: [next_event] never advances the cursor and never calls a hook:
    whatever the player, it leaves the player and the record of calls
    as they were.  It returns 0 on an empty list or at a position at
    or past the end; at any other position it raises: NameError (from
    [handle_event]) where the position indexes an entry, counting from
    the end when negative, and IndexError below that. *)
Theorem next_event_never_advances {Payload Tempo : Type}
    (payload_truthy : Payload → bool) (w : @World Payload Tempo) :
  ((_events (self w) = [] ∨
    Z.of_nat (List.length (_events (self w))) ≤ _position (self w)) ∧
   next_event payload_truthy w = (Return 0, w)) ∨
  ((- Z.of_nat (List.length (_events (self w))) ≤ _position (self w)
      < Z.of_nat (List.length (_events (self w)))) ∧
   next_event payload_truthy w = (Raise NameError, w)) ∨
  ((_events (self w) ≠ [] ∧
    _position (self w) < - Z.of_nat (List.length (_events (self w)))) ∧
   next_event payload_truthy w = (Raise IndexError, w)).
Proof.
  unfold next_event, bind, get, lift. simpl.
  destruct (decide (_events (self w) = [])) as [Hnil|Hne].
  { left. split; [by left|].
    by rewrite bool_decide_eq_false_2 by (by intros []). }
  rewrite (bool_decide_eq_true_2 (_events (self w) ≠ [])) by done.
  destruct (decide (_position (self w)
                      < Z.of_nat (List.length (_events (self w)))))
    as [Hlt|Hge].
  2:{ left. split; [right; lia|]. by rewrite bool_decide_eq_false_2 by done. }
  rewrite bool_decide_eq_true_2 by done. simpl. right.
  destruct (decide (0 ≤ _position (self w))) as [Hpos|Hneg].
  - left. split; [lia|].
    by destruct (py_index_inside (_events (self w)) (_position (self w)))
      as (ev & _ & ->); [lia|].
  - destruct (decide (- Z.of_nat (List.length (_events (self w)))
                        ≤ _position (self w))) as [Hwrap|Hbelow].
    + left. split; [lia|].
      by destruct (py_index_wraps (_events (self w)) (_position (self w)))
        as (ev & _ & ->); [lia|].
    + right. split; [split; [done|lia]|].
      by rewrite py_index_below by lia.
Qed.

(** ** seek_measure: where it lands *)

Section seek_measure_outcomes.
Context {Payload Tempo : Type}.
Implicit Types (w : @World Payload Tempo) (measnum : Z).

(** The two ways [seek_measure] ends, in the vocabulary of the scan. *)
Lemma seek_measure_cases w measnum beat_ :
  (∃ k : nat,
      found (_events (self w)) measnum beat_ k ∧
      (∀ j : nat, found (_events (self w)) measnum beat_ j → (j ≤ k)%nat) ∧
      seek_measure measnum beat_ w =
        (Return true,
         {| self := assign_position (self w) (Z.of_nat k);
            calls := calls w ++ [set_position (Z.of_nat k) 0] |})) ∨
  ((∀ k : nat, ¬ found (_events (self w)) measnum beat_ k) ∧
   seek_measure measnum beat_ w = (Return false, w)).
Proof.
  unfold seek_measure, bind, get. simpl.
  destruct (seek_measure_loop_spec (_events (self w)) measnum beat_ 0
              false None) as [(k & Hk & Hmax & ->)|(Hno & ->)].
  - left. exists k. by rewrite Z.add_0_l.
  - by right.
Qed.

(** An index is found when it carries a marker of the measure and
    every marker before it is in an earlier measure, or in the measure
    before the beat asked for. *)
Lemma found_behind_earlier_markers w measnum beat_ (i : nat) ev :
  _events (self w) !! i = Some ev →
  in_measure measnum ev.2 →
  (∀ (j : nat) ev' m' b' num' den',
     (j < i)%nat → _events (self w) !! j = Some ev' →
     beat ev'.2 = Some (m', b', num', den') →
     m' < measnum ∨ (m' = measnum ∧ b' < beat_)) →
  found (_events (self w)) measnum beat_ i.
Proof.
  intros Hev Hin Hbefore. split; [|by exists ev].
  intros j ev' Hj Hev' (m' & b' & num' & den' & Hbeat & Hstop).
  pose proof (Hbefore j ev' m' b' num' den' Hj Hev' Hbeat). lia.
Qed.
End seek_measure_outcomes.

(** X10: [seek_measure] never raises.  Either it returns False and
    leaves the player and the record of calls as they were, or it
    returns True having changed only the position, to the index of an
    entry whose beat marker is in the measure asked for, with one
    [set_position] call (offset 0) recorded. *)
Theorem seek_measure_lands_in_measure {Payload Tempo : Type}
    (w : @World Payload Tempo) (measnum beat_ : Z) :
  seek_measure measnum beat_ w = (Return false, w) ∨
  ∃ (k : nat) ev b num den,
    _events (self w) !! k = Some ev ∧
    beat ev.2 = Some (measnum, b, num, den) ∧
    seek_measure measnum beat_ w =
      (Return true,
       {| self := {| _song := _song (self w);
                     _events := _events (self w);
                     _position := Z.of_nat k;
                     _tempo_factor := _tempo_factor (self w) |};
          calls := calls w ++ [set_position (Z.of_nat k) 0] |}).
Proof.
  destruct (seek_measure_cases w measnum beat_)
    as [(k & Hk & _ & Hret)|(_ & Hret)]; [|by left].
  right. destruct Hk as (_ & ev & Hev & b & num & den & Hbeat).
  by exists k, ev, b, num, den.
Qed.

(** X11: if an entry carries a marker of the measure asked for, at or
    after the beat asked for, and every marker before it is in an
    earlier measure or in that measure before that beat, then
    [seek_measure] moves the cursor to that entry: the first marker at
    or after the musical position asked for. *)
Theorem seek_measure_first_at_or_after {Payload Tempo : Type}
    (w : @World Payload Tempo) (measnum beat_ : Z)
    (i : nat) (ev : Z * Event) (b num den : Z) :
  _events (self w) !! i = Some ev →
  beat ev.2 = Some (measnum, b, num, den) →
  beat_ ≤ b →
  (∀ (j : nat) ev' m' b' num' den',
     (j < i)%nat → _events (self w) !! j = Some ev' →
     beat ev'.2 = Some (m', b', num', den') →
     m' < measnum ∨ (m' = measnum ∧ b' < beat_)) →
  seek_measure measnum beat_ w =
    (Return true,
     {| self := {| _song := _song (self w);
                   _events := _events (self w);
                   _position := Z.of_nat i;
                   _tempo_factor := _tempo_factor (self w) |};
        calls := calls w ++ [set_position (Z.of_nat i) 0] |}).
Proof.
  intros Hev Hbeat Hb Hbefore.
  assert (found (_events (self w)) measnum beat_ i) as Hi.
  { eapply found_behind_earlier_markers; [done| |done].
    by exists b, num, den. }
  destruct (seek_measure_cases w measnum beat_)
    as [(k & Hk & Hmax & Hret)|(Hno & _)]; [|by apply Hno in Hi].
  assert (k = i) as ->; [|done].
  apply Hmax in Hi as Hle. destruct (decide (k = i)) as [|Hne]; [done|].
  destruct Hk as [Hsc _]. destruct (Hsc i ev); [lia|done|].
  exists measnum, b, num, den. split; [done|]. right. lia.
Qed.

Lemma seek_measure_first_at_or_after_witness :
  seek_measure 1 2 (Examples.world Examples.beats3 0) =
    (Return true,
     {| self := {| _song := _song (self (Examples.world Examples.beats3 0));
                   _events := _events (self (Examples.world Examples.beats3 0));
                   _position := 1;
                   _tempo_factor := _tempo_factor (self (Examples.world Examples.beats3 0)) |};
        calls := [set_position 1 0] |}).
Proof.
  apply (seek_measure_first_at_or_after (Examples.world Examples.beats3 0)
           1 2 1 (Examples.marker 480 1 2 4 4) 2 4 4).
  - reflexivity.
  - reflexivity.
  - lia.
  - intros j ev' m' b' num' den' Hj Hev' Hbeat.
    destruct j as [|j]; [|lia]. simpl in Hev'. injection Hev' as <-.
    simpl in Hbeat. injection Hbeat as <- <- <- <-. lia.
Defined.

(** X12: if an entry carries a marker of the measure asked for, every
    marker before it is in an earlier measure or in that measure
    before the beat asked for, and no later entry has a marker of that
    measure, then [seek_measure] moves the cursor to that entry: asked
    for a beat beyond those of the measure, it lands on the last
    marker of the measure. *)
Theorem seek_measure_last_of_measure {Payload Tempo : Type}
    (w : @World Payload Tempo) (measnum beat_ : Z)
    (i : nat) (ev : Z * Event) :
  _events (self w) !! i = Some ev →
  in_measure measnum ev.2 →
  (∀ (j : nat) ev' m' b' num' den',
     (j < i)%nat → _events (self w) !! j = Some ev' →
     beat ev'.2 = Some (m', b', num', den') →
     m' < measnum ∨ (m' = measnum ∧ b' < beat_)) →
  (∀ (j : nat) ev', (i < j)%nat → _events (self w) !! j = Some ev' →
                    ¬ in_measure measnum ev'.2) →
  seek_measure measnum beat_ w =
    (Return true,
     {| self := {| _song := _song (self w);
                   _events := _events (self w);
                   _position := Z.of_nat i;
                   _tempo_factor := _tempo_factor (self w) |};
        calls := calls w ++ [set_position (Z.of_nat i) 0] |}).
Proof.
  intros Hev Hin Hbefore Hafter.
  assert (found (_events (self w)) measnum beat_ i) as Hi
    by (by eapply found_behind_earlier_markers).
  destruct (seek_measure_cases w measnum beat_)
    as [(k & Hk & Hmax & Hret)|(Hno & _)]; [|by apply Hno in Hi].
  assert (k = i) as ->; [|done].
  apply Hmax in Hi as Hle. destruct (decide (k = i)) as [|Hne]; [done|].
  destruct Hk as (_ & ev' & Hev' & Hin').
  destruct (Hafter k ev'); [lia|done..].
Qed.

Lemma seek_measure_last_of_measure_witness :
  seek_measure 1 3 (Examples.world Examples.beats3 0) =
    (Return true,
     {| self := {| _song := _song (self (Examples.world Examples.beats3 0));
                   _events := _events (self (Examples.world Examples.beats3 0));
                   _position := 1;
                   _tempo_factor := _tempo_factor (self (Examples.world Examples.beats3 0)) |};
        calls := [set_position 1 0] |}).
Proof.
  apply (seek_measure_last_of_measure (Examples.world Examples.beats3 0)
           1 3 1 (Examples.marker 480 1 2 4 4)).
  - reflexivity.
  - by exists 2, 4, 4.
  - intros j ev' m' b' num' den' Hj Hev' Hbeat.
    destruct j as [|j]; [|lia]. simpl in Hev'. injection Hev' as <-.
    simpl in Hbeat. injection Hbeat as <- <- <- <-. lia.
  - intros j ev' Hj Hev' (b' & num' & den' & Hbeat).
    destruct j as [|[|[|j]]]; [lia|lia| |done].
    simpl in Hev'. injection Hev' as <-. discriminate Hbeat.
Defined.

(** ** make_event_list: which entries, with which fields *)

Section event_dict_contents.
Context {Payload : Type}.
Implicit Types (d : gmap Z (@Event Payload)) (t : Z) (e : @Event Payload).
Implicit Types (song : @Song Payload).

(** *** Keys *)

Lemma foldl_keys {X : Type} (f : gmap Z (@Event Payload) → X → gmap Z Event)
    (key : X → Z) :
  (∀ d x t, is_Some (f d x !! t) ↔ t = key x ∨ is_Some (d !! t)) →
  ∀ (l : list X) d t,
    is_Some (foldl f d l !! t) ↔ t ∈ key <$> l ∨ is_Some (d !! t).
Proof.
  intros Hf l. induction l as [|x l IH]; intros d t; simpl.
  - split; [by right|]. intros [Hin|Hd]; [by apply elem_of_nil in Hin|done].
  - rewrite IH, Hf, elem_of_cons. tauto.
Qed.

Lemma insert_keys d (k t : Z) e :
  is_Some (<[k := e]> d !! t) ↔ t = k ∨ is_Some (d !! t).
Proof.
  destruct (decide (t = k)) as [->|Hne].
  - rewrite lookup_insert_eq. split; [by left|by eexists].
  - rewrite lookup_insert_ne by done. split; [by right|by intros [|]].
Qed.

Lemma event_dict_keys song (time_ : option Z) (beat_ : bool) t :
  is_Some (event_dict song time_ beat_ !! t) ↔
    t ∈ (music song).*1 ∨
    match time_ with
    | Some step => step ≠ 0 ∧ t ∈ py_range 0 (length song + 1) step
    | None => False
    end ∨
    (beat_ = true ∧ t ∈ (beats song).*1).
Proof.
  assert (∀ l d t', is_Some (foldl add_midi d l !! t')
                    ↔ t' ∈ l.*1 ∨ is_Some (d !! t')) as Hmidi.
  { apply (foldl_keys add_midi fst). intros d x t'. apply insert_keys. }
  assert (∀ l d t', is_Some (foldl add_time d l !! t')
                    ↔ t' ∈ l ∨ is_Some (d !! t')) as Htime.
  { intros l d t'. rewrite <- (list_fmap_id l) at 2.
    apply (foldl_keys add_time id). intros d' x t''. apply insert_keys. }
  assert (∀ l d t', is_Some (foldl add_beat d l !! t')
                    ↔ t' ∈ l.*1 ∨ is_Some (d !! t')) as Hbeat.
  { apply (foldl_keys add_beat fst). intros d x t'. apply insert_keys. }
  assert (¬ is_Some ((∅ : gmap Z (@Event Payload)) !! t)) as Hempty.
  { rewrite lookup_empty. by intros [? ?]. }
  unfold event_dict.
  destruct beat_; [rewrite Hbeat|];
    (destruct time_ as [step|]; [case_bool_decide as Hstep|]);
    rewrite ?Htime, Hmidi; intuition (try done; try discriminate).
Qed.

(** *** Last one wins *)

Lemma midi_foldl_add_midi_last (l : list (Z * Payload)) d t :
  midi (getitem (foldl add_midi d l) t) =
    match last (filter (λ x, x.1 = t) l) with
    | Some x => Some x.2
    | None => midi (getitem d t)
    end.
Proof.
  revert d. induction l as [|x l IH]; intros d; simpl; [done|].
  rewrite IH. unfold add_midi. rewrite getitem_insert.
  destruct (decide (t = x.1)) as [->|Hne].
  - rewrite filter_cons_True by done. rewrite last_cons.
    by destruct (last (filter _ l)).
  - rewrite filter_cons_False by done. done.
Qed.

Lemma beat_foldl_add_beat_last (l : list (Z * Beat)) d t :
  beat (getitem (foldl add_beat d l) t) =
    match last (filter (λ x, x.1 = t) l) with
    | Some x => Some x.2
    | None => beat (getitem d t)
    end.
Proof.
  revert d. induction l as [|x l IH]; intros d; simpl; [done|].
  rewrite IH. unfold add_beat. rewrite getitem_insert.
  destruct (decide (t = x.1)) as [->|Hne].
  - rewrite filter_cons_True by done. rewrite last_cons.
    by destruct (last (filter _ l)).
  - rewrite filter_cons_False by done. done.
Qed.

Lemma beat_foldl_add_midi (l : list (Z * Payload)) d t :
  beat (getitem (foldl add_midi d l) t) = beat (getitem d t).
Proof.
  revert d. induction l as [|x l IH]; intros d; simpl; [done|].
  rewrite IH. unfold add_midi. rewrite getitem_insert.
  case_decide; by subst.
Qed.

Lemma beat_foldl_add_time (l : list Z) d t :
  beat (getitem (foldl add_time d l) t) = beat (getitem d t).
Proof.
  revert d. induction l as [|x l IH]; intros d; simpl; [done|].
  rewrite IH. unfold add_time. rewrite getitem_insert.
  case_decide; by subst.
Qed.

Lemma midi_event_dict song (time_ : option Z) (beat_ : bool) t :
  midi (getitem (event_dict song time_ beat_) t)
    = snd <$> last (filter (λ x, x.1 = t) (music song)).
Proof.
  unfold event_dict.
  destruct beat_; [rewrite midi_foldl_add_beat|];
    (destruct time_ as [step|]; [case_bool_decide|]);
    rewrite ?midi_foldl_add_time, midi_foldl_add_midi_last, getitem_empty;
    by destruct (last _).
Qed.

Lemma beat_event_dict song (time_ : option Z) (beat_ : bool) t :
  beat (getitem (event_dict song time_ beat_) t)
    = if beat_ then snd <$> last (filter (λ x, x.1 = t) (beats song))
      else None.
Proof.
  unfold event_dict.
  destruct beat_; [rewrite beat_foldl_add_beat_last|];
    (destruct time_ as [step|]; [case_bool_decide|]);
    rewrite ?beat_foldl_add_time, beat_foldl_add_midi, getitem_empty;
    try done; by destruct (last _).
Qed.

(** The time flag of a bundle, for every value of the interval. *)
Lemma time_event_dict_any song (time_ : option Z) (beat_ : bool) t :
  time (getitem (event_dict song time_ beat_) t) =
    match time_ with
    | Some step =>
        bool_decide (step ≠ 0)
        && bool_decide (t ∈ py_range 0 (length song + 1) step)
    | None => false
    end.
Proof.
  destruct time_ as [step|].
  - destruct (decide (step = 0)) as [->|Hne].
    + unfold event_dict. simpl.
      destruct beat_; [rewrite time_foldl_add_beat|];
        by rewrite time_foldl_add_midi, getitem_empty.
    + rewrite time_event_dict by done.
      by rewrite (bool_decide_eq_true_2 (step ≠ 0)) by done.
  - unfold event_dict.
    destruct beat_; [rewrite time_foldl_add_beat|];
      by rewrite time_foldl_add_midi, getitem_empty.
Qed.
End event_dict_contents.

(** X13: the timestamps of the list built by [make_event_list] are
    exactly those of the MIDI events of the song, the values of the
    time range when a non-zero interval is given, and the timestamps
    of the beats when beats are asked for. *)
Theorem make_event_list_timestamps_exact {Payload : Type}
    (song : @Song Payload) (time_ : option Z) (beat_ : bool) (t : Z) :
  (∃ e, (t, e) ∈ make_event_list song time_ beat_) ↔
    t ∈ (music song).*1 ∨
    match time_ with
    | Some step => step ≠ 0 ∧ t ∈ py_range 0 (length song + 1) step
    | None => False
    end ∨
    (beat_ = true ∧ t ∈ (beats song).*1).
Proof.
  rewrite <- event_dict_keys. split.
  - intros (e & He). apply elem_of_make_event_list in He. by exists e.
  - intros (e & He). exists e. by apply elem_of_make_event_list.
Qed.

(** X15: the MIDI payload of an entry is the last one the song gives
    for its timestamp (none if the song gives none): of several
    payloads at one timestamp the last wins, and neither the time
    ticks nor the beats touch it. *)
Theorem make_event_list_midi_last_wins {Payload : Type}
    (song : @Song Payload) (time_ : option Z) (beat_ : bool)
    (t : Z) (e : Event) :
  (t, e) ∈ make_event_list song time_ beat_ →
  midi e = snd <$> last (filter (λ x, x.1 = t) (music song)).
Proof.
  intros He. apply elem_of_make_event_list in He.
  rewrite <- (getitem_lookup _ _ _ He). apply midi_event_dict.
Qed.

Lemma make_event_list_midi_last_wins_witness :
  midi {| midi := Some "C"%string; time := true;
          beat := Some (2, 1, 3, 4) |}
    = snd <$> last (filter (λ x, x.1 = 0) (music Examples.song_twice)).
Proof.
  apply (make_event_list_midi_last_wins Examples.song_twice (Some 10) true 0).
  rewrite elem_of_make_event_list. vm_compute. reflexivity.
Defined.

(** X16: when beats are asked for, the beat marker of an entry is the
    last one the song gives for its timestamp (none if the song gives
    none); when they are not, no entry has a beat marker. *)
Theorem make_event_list_beat_last_wins {Payload : Type}
    (song : @Song Payload) (time_ : option Z) (beat_ : bool)
    (t : Z) (e : Event) :
  (t, e) ∈ make_event_list song time_ beat_ →
  beat e = if beat_
           then snd <$> last (filter (λ x, x.1 = t) (beats song))
           else None.
Proof.
  intros He. apply elem_of_make_event_list in He.
  rewrite <- (getitem_lookup _ _ _ He). apply beat_event_dict.
Qed.

Lemma make_event_list_beat_last_wins_witness :
  beat {| midi := Some "C"%string; time := true;
          beat := Some (2, 1, 3, 4) |}
    = snd <$> last (filter (λ x, x.1 = 0) (beats Examples.song_twice)).
Proof.
  apply (make_event_list_beat_last_wins Examples.song_twice (Some 10) true 0).
  rewrite elem_of_make_event_list. vm_compute. reflexivity.
Defined.

Lemma py_range_down_empty (start stop step : Z) :
  step < 0 → start ≤ stop → py_range start stop step = [].
Proof.
  intros Hstep Hle. unfold py_range.
  rewrite bool_decide_eq_false_2 by lia.
  rewrite seqZ_nil; [done|].
  assert ((start - stop - step - 1) `div` (- step) < 1); [|lia].
  apply Z.div_lt_upper_bound; lia.
Qed.

(** X17: with no interval, with an interval of 0, or with a negative
    interval on a song whose length is at least -1, no entry of the
    list has the time flag. *)
Theorem make_event_list_no_ticks {Payload : Type}
    (song : @Song Payload) (time_ : option Z) (beat_ : bool)
    (t : Z) (e : Event) :
  time_ = None ∨ time_ = Some 0 ∨
    (∃ step, time_ = Some step ∧ step < 0 ∧ -1 ≤ length song) →
  (t, e) ∈ make_event_list song time_ beat_ →
  time e = false.
Proof.
  intros Hoff He. apply elem_of_make_event_list in He.
  rewrite <- (getitem_lookup _ _ _ He), time_event_dict_any.
  destruct Hoff as [->|[->|(step & -> & Hstep & Hlen)]]; [done|done|].
  rewrite py_range_down_empty by lia.
  rewrite (bool_decide_eq_false_2 (t ∈ [])) by apply not_elem_of_nil.
  apply andb_false_r.
Qed.

Lemma make_event_list_no_ticks_witness :
  time {| midi := Some "B"%string; time := false; beat := @None Beat |}
    = false.
Proof.
  apply (make_event_list_no_ticks Examples.song (Some (-30)) true 100).
  - right. right. exists (-30). split; [reflexivity|]. simpl. lia.
  - rewrite elem_of_make_event_list. vm_compute. reflexivity.
Defined.

(** X18: the list built by [make_event_list] is empty exactly when the
    song has no MIDI events, the time range (for a non-zero interval)
    is empty, and the song has no beats or beats are not asked for.
    An empty song still gets entries from the time ticks. *)
Theorem make_event_list_empty_iff {Payload : Type}
    (song : @Song Payload) (time_ : option Z) (beat_ : bool) :
  make_event_list song time_ beat_ = [] ↔
    music song = [] ∧
    match time_ with
    | Some step => step ≠ 0 → py_range 0 (length song + 1) step = []
    | None => True
    end ∧
    (beat_ = true → beats song = []).
Proof.
  assert (make_event_list song time_ beat_ = [] ↔
          ∀ t, ¬ ∃ e, (t, e) ∈ make_event_list song time_ beat_) as ->.
  { split.
    - intros -> t (e & He). by apply elem_of_nil in He.
    - intros Hno. destruct (make_event_list song time_ beat_) as [|[t e] l];
        [done|].
      destruct (Hno t). exists e. apply elem_of_cons. by left. }
  assert (∀ {X : Type} (l : list (Z * X)),
            l = [] ↔ ∀ t, t ∉ l.*1) as Hfst.
  { intros X l. split.
    - intros -> t. apply not_elem_of_nil.
    - intros Hno. destruct l as [|[t x] l]; [done|].
      destruct (Hno t). simpl. apply elem_of_cons. by left. }
  assert (∀ l : list Z, l = [] ↔ ∀ t, t ∉ l) as Hlist.
  { intros l. split.
    - intros -> t. apply not_elem_of_nil.
    - intros Hno. destruct l as [|t l]; [done|].
      destruct (Hno t). apply elem_of_cons. by left. }
  assert (∀ t, (∃ e, (t, e) ∈ make_event_list song time_ beat_) ↔
            t ∈ (music song).*1 ∨
            match time_ with
            | Some step => step ≠ 0 ∧ t ∈ py_range 0 (length song + 1) step
            | None => False
            end ∨
            (beat_ = true ∧ t ∈ (beats song).*1)) as Hkeys.
  { intros t. rewrite <- event_dict_keys. split.
    - intros (e & He). apply elem_of_make_event_list in He. by exists e.
    - intros (e & He). exists e. by apply elem_of_make_event_list. }
  rewrite (Hfst _ (music song)), (Hfst _ (beats song)).
  split.
  - intros Hno. split; [|split].
    + intros t Hin. apply (Hno t).
      apply Hkeys. by left.
    + destruct time_ as [step|]; [|done]. intros Hstep.
      apply Hlist. intros t Hin. apply (Hno t).
      apply Hkeys. right. by left.
    + intros -> t Hin. apply (Hno t).
      apply Hkeys. right. by right.
  - intros (Hmusic & Htime & Hbeats) t Hex.
    apply Hkeys in Hex
      as [Hin|[Hin|[-> Hin]]].
    + by apply (Hmusic t).
    + destruct time_ as [step|]; [|done]. destruct Hin as [Hstep Hin].
      rewrite (Htime Hstep) in Hin. by apply elem_of_nil in Hin.
    + by apply (Hbeats eq_refl t).
Qed.

(** ** set_song followed by the queries *)

Section after_set_song.
Context {Payload Tempo : Type}.
Implicit Types (song : @Song Payload) (w : @World Payload Tempo).

Lemma make_event_list_sorted song (time_ : option Z) (beat_ : bool) :
  StronglySorted Z.lt (make_event_list song time_ beat_).*1.
Proof.
  apply strictly_sorted.
  - rewrite make_event_list_timestamps.
    apply (StronglySorted_merge_sort Z.le).
  - rewrite make_event_list_timestamps, merge_sort_Permutation.
    apply NoDup_elements.
Qed.

Lemma event_dict_keys_of_list song (time_ : option Z) (beat_ : bool) (t : Z) :
  (∃ e, (t, e) ∈ make_event_list song time_ beat_) ↔
    t ∈ (music song).*1 ∨
    match time_ with
    | Some step => step ≠ 0 ∧ t ∈ py_range 0 (length song + 1) step
    | None => False
    end ∨
    (beat_ = true ∧ t ∈ (beats song).*1).
Proof.
  rewrite <- event_dict_keys.
  split; intros (e & He); exists e; by apply elem_of_make_event_list.
Qed.

(** On an ordered list the search for the timestamp of an entry stops
    at that entry. *)
Lemma bisect_finds_entry (events : list (Z * @Event Payload))
    (i : nat) (ev : Z * Event) :
  StronglySorted Z.lt events.*1 →
  events !! i = Some ev →
  bisect events ev.1 0 (Z.of_nat (List.length events)) = Return (Z.of_nat i).
Proof.
  intros Hs Hi. apply lookup_lt_Some in Hi as Hlt.
  destruct (bisect_returns events ev.1 0 (Z.of_nat (List.length events)))
    as (r & Hb & Hr); [lia..|].
  rewrite Hb. f_equal.
  rewrite <- (Z2Nat.id r) in Hb by lia.
  destruct (bisect_splits _ _ _ Hs Hb) as [Hlo Hhi].
  destruct (decide (i < Z.to_nat r)%nat).
  { pose proof (Hlo i ev ltac:(lia) Hi). lia. }
  destruct (decide (Z.to_nat r < i)%nat); [|lia].
  destruct (lookup_lt_is_Some_2 events (Z.to_nat r)) as [ev' Hev']; [lia|].
  pose proof (Hhi (Z.to_nat r) ev' ltac:(lia) Hev').
  pose proof (sorted_lookup_lt events.*1 (Z.to_nat r) i ev'.1 ev.1 Hs
                ltac:(lia)) as Hord.
  rewrite !list_lookup_fmap, Hev', Hi in Hord.
  specialize (Hord eq_refl eq_refl). lia.
Qed.
End after_set_song.

(** X19: after [set_song] with an interval above 0 that divides the
    length of the song, for a song whose length is not negative and
    whose MIDI events and beats are not after that length,
    [total_time] returns the length of the song. *)
Theorem total_time_is_song_length {Payload Tempo : Type}
    (song : @Song Payload) (step : Z) (beat_ : bool)
    (w : @World Payload Tempo) :
  0 < step → 0 ≤ length song → (step | length song) →
  (∀ x, x ∈ music song → x.1 ≤ length song) →
  (∀ x, x ∈ beats song → x.1 ≤ length song) →
  total_time (self (set_song song (Some step) beat_ w).2)
    = Return (length song).
Proof.
  intros Hstep Hlen [k Hk] Hmusic Hbeats.
  change (self (set_song song (Some step) beat_ w).2)
    with {| _song := Some song;
            _events := make_event_list song (Some step) beat_;
            _position := _position (self w);
            _tempo_factor := _tempo_factor (self w) |}.
  set (tl := make_event_list song (Some step) beat_).
  assert (∃ e, (length song, e) ∈ tl) as (e & He).
  { destruct (proj2 (time_tick_in_list song step beat_ (length song)
                       ltac:(lia))) as (e & He & _); [|by exists e].
    apply elem_of_py_range_up; [done|]. exists k. nia. }
  apply list_elem_of_lookup in He as [j Hj].
  destruct (last_of_nonempty tl) as [lst Hlast].
  { intros Hnil. by rewrite Hnil in Hj. }
  rewrite (total_time_last _ lst) by done. f_equal.
  apply Z.le_antisymm.
  - assert (∃ e', (lst.1, e') ∈ tl) as Hin.
    { exists lst.2. rewrite <- surjective_pairing.
      by apply last_Some_elem_of. }
    apply event_dict_keys_of_list in Hin as [Hin|[[_ Hin]|[_ Hin]]].
    + apply list_elem_of_fmap in Hin as (x & -> & Hx). by apply Hmusic.
    + apply elem_of_py_range_up in Hin as (i & _ & _ & Hlt); [lia|done].
    + apply list_elem_of_fmap in Hin as (x & -> & Hx). by apply Hbeats.
  - rewrite last_lookup in Hlast.
    pose proof (lookup_lt_Some _ _ _ Hj).
    apply (timestamps_lookup_le tl j (Nat.pred (List.length tl))
             (length song, e) lst); [apply make_event_list_sorted|lia|done..].
Qed.

Lemma total_time_is_song_length_witness :
  total_time
    (self (set_song Examples.song (Some 50) true (Examples.world [] 0)).2)
    = Return 100.
Proof.
  apply (total_time_is_song_length Examples.song 50 true
           (Examples.world [] 0)).
  - lia.
  - simpl. lia.
  - exists 2. reflexivity.
  - intros x Hx. simpl in Hx.
    repeat (apply elem_of_cons in Hx as [->|Hx]; [simpl; lia|]).
    by apply elem_of_nil in Hx.
  - intros x Hx. simpl in Hx.
    repeat (apply elem_of_cons in Hx as [->|Hx]; [simpl; lia|]).
    by apply elem_of_nil in Hx.
Defined.

(** X20: after [set_song] with an interval above 0, seeking to a
    multiple of the interval that is above 0 and not after the length
    of the song returns, with the offset 0, on the entry of that
    timestamp, whose time flag is set. *)
Theorem seek_to_tick_after_set_song {Payload Tempo : Type}
    (song : @Song Payload) (step k : Z) (beat_ : bool)
    (w : @World Payload Tempo) :
  0 < step → 0 < k → step * k ≤ length song →
  ∃ (i : nat) (e : Event),
    make_event_list song (Some step) beat_ !! i = Some (step * k, e) ∧
    time e = true ∧
    seek (step * k) (set_song song (Some step) beat_ w).2 =
      (Return tt,
       {| self := {| _song := _song (self (set_song song (Some step) beat_ w).2);
                     _events := _events (self (set_song song (Some step) beat_ w).2);
                     _position := Z.of_nat i;
                     _tempo_factor := _tempo_factor (self (set_song song (Some step) beat_ w).2) |};
          calls := calls w ++ [set_position (Z.of_nat i) 0] |}).
Proof.
  intros Hstep Hk Hlen.
  destruct (proj2 (time_tick_in_list song step beat_ (step * k)
                     ltac:(lia))) as (e & He & Htime).
  { apply elem_of_py_range_up; [done|]. exists k. lia. }
  apply list_elem_of_lookup in He as [i Hi].
  exists i, e. split; [done|]. split; [done|].
  pose proof (bisect_finds_entry _ i _
                (make_event_list_sorted song (Some step) beat_) Hi) as Hb.
  pose proof (lookup_lt_Some _ _ _ Hi) as Hlt.
  destruct (py_index_inside (make_event_list song (Some step) beat_)
              (Z.of_nat i)) as (x & Hx & Hidx); [lia|].
  rewrite Nat2Z.id, Hi in Hx. injection Hx as <-.
  rewrite (seek_found _ (step * k) (Z.of_nat i) (step * k, e));
    [|nia|done..].
  simpl. by rewrite Z.sub_diag.
Qed.

Lemma seek_to_tick_after_set_song_witness :
  ∃ (i : nat) (e : Event),
    make_event_list Examples.song (Some 50) true !! i = Some (50 * 1, e) ∧
    time e = true ∧
    seek (50 * 1)
      (set_song Examples.song (Some 50) true (Examples.world [] 0)).2 =
      (Return tt,
       {| self := {| _song := _song (self (set_song Examples.song (Some 50) true (Examples.world [] 0)).2);
                     _events := _events (self (set_song Examples.song (Some 50) true (Examples.world [] 0)).2);
                     _position := Z.of_nat i;
                     _tempo_factor := _tempo_factor (self (set_song Examples.song (Some 50) true (Examples.world [] 0)).2) |};
          calls := [set_position (Z.of_nat i) 0] |}).
Proof.
  apply (seek_to_tick_after_set_song Examples.song 50 1 true
           (Examples.world [] 0)).
  - lia.
  - lia.
  - simpl. lia.
Defined.

(** X21: [set_song] replaces the list of events and keeps the position
    and the tempo factor, calling no hook.  A position beyond the
    length of the new list is therefore kept as it is, and
    [current_time] then raises IndexError. *)
Theorem set_song_keeps_position {Payload Tempo : Type}
    (song : @Song Payload) (time_ : option Z) (beat_ : bool)
    (w : @World Payload Tempo) :
  _position (self (set_song song time_ beat_ w).2) = _position (self w) ∧
  _tempo_factor (self (set_song song time_ beat_ w).2)
    = _tempo_factor (self w) ∧
  _events (self (set_song song time_ beat_ w).2)
    = make_event_list song time_ beat_ ∧
  calls (set_song song time_ beat_ w).2 = calls w ∧
  (Z.of_nat (List.length (make_event_list song time_ beat_))
     < _position (self w) →
   current_time (self (set_song song time_ beat_ w).2) = Raise IndexError).
Proof.
  repeat split. intros Hstale. unfold current_time. simpl.
  rewrite bool_decide_eq_true_2 by lia.
  by rewrite py_index_past by lia.
Qed.

Lemma set_song_keeps_position_witness :
  current_time
    (self (set_song {| music := []; length := 0; beats := [] |} None true
             (Examples.world Examples.events3 3)).2)
    = Raise IndexError.
Proof.
  apply (proj2 (proj2 (proj2 (proj2
    (set_song_keeps_position {| music := []; length := 0; beats := [] |}
       None true (Examples.world Examples.events3 3)))))).
  vm_compute. reflexivity.
Defined.

(** ** Event.__repr__ *)

Lemma append_assoc (s1 s2 s3 : string) :
  (s1 +:+ s2) +:+ s3 = s1 +:+ (s2 +:+ s3).
Proof.
  induction s1 as [|a s1 IH]; [done|].
  change (String a ((s1 +:+ s2) +:+ s3) = String a (s1 +:+ s2 +:+ s3)).
  by f_equal.
Qed.

Lemma append_cons (a : ascii) (s t : string) :
  String a s +:+ t = String a (s +:+ t).
Proof. reflexivity. Qed.

Lemma append_nil (t : string) : "" +:+ t = t.
Proof. reflexivity. Qed.

(** Two texts that agree up to the first occurrence of a character
    agree before it and after it. *)
Lemma split_at (c : ascii) (s1 s2 t1 t2 : string) :
  free_of c s1 → free_of c s2 →
  s1 +:+ String c t1 = s2 +:+ String c t2 → s1 = s2 ∧ t1 = t2.
Proof.
  revert s2. induction s1 as [|a s1 IH]; intros [|b s2];
    rewrite ?append_cons, ?append_nil; simpl.
  - by intros _ _ [= ->].
  - by intros _ [Hb _] [= <- _].
  - by intros [Ha _] _ [= -> _].
  - intros [_ H1] [_ H2] [= -> Heq].
    by destruct (IH s2 H1 H2 Heq) as [-> ->].
Qed.

Lemma pretty_N_go_free (c : ascii) (x : N) (s : string) :
  (∀ d : N, pretty_N_char d ≠ c) → free_of c s →
  free_of c (pretty_N_go x s).
Proof.
  intros Hc. revert s. induction (N.lt_wf_0 x) as [x _ IH]; intros s Hs.
  assert (x = 0 ∨ 0 < x)%N as [->|Hx] by lia.
  - by rewrite pretty_N_go_0.
  - rewrite pretty_N_go_step by done. apply IH.
    + by apply N.div_lt.
    + simpl. split; [apply Hc|done].
Qed.

(** The decimal text of an integer holds digits and at most a sign. *)
Lemma pretty_Z_free (c : ascii) (z : Z) :
  (∀ d : N, pretty_N_char d ≠ c) → c ≠ "-"%char → free_of c (pretty z).
Proof.
  intros Hc Hdash.
  assert (∀ n : N, free_of c (pretty n)) as HN.
  { intros n. unfold pretty, pretty_N. case_decide.
    - simpl. split; [|done]. apply (Hc 0%N).
    - by apply pretty_N_go_free. }
  destruct z as [|p|p]; unfold pretty, pretty_Z.
  - simpl. split; [|done]. apply (Hc 0%N).
  - apply (HN (N.pos p)).
  - simpl. split; [done|]. apply (HN (N.pos p)).
Qed.

Lemma digit_ne_colon (d : N) : pretty_N_char d ≠ ":"%char.
Proof. unfold pretty_N_char. by repeat case_match. Qed.

Lemma digit_ne_paren (d : N) : pretty_N_char d ≠ ")"%char.
Proof. unfold pretty_N_char. by repeat case_match. Qed.

Lemma beat_text_inj (m1 b1 m2 b2 : Z) (t1 t2 : string) :
  pretty m1 +:+ String ":" (pretty b1 +:+ String ")" t1)
    = pretty m2 +:+ String ":" (pretty b2 +:+ String ")" t2) →
  m1 = m2 ∧ b1 = b2 ∧ t1 = t2.
Proof.
  intros H.
  apply split_at in H as [Hm H];
    [|by apply pretty_Z_free; [apply digit_ne_colon|]..].
  apply split_at in H as [Hb H];
    [|by apply pretty_Z_free; [apply digit_ne_paren|]..].
  split; [by apply (inj pretty)|]. split; [by apply (inj pretty)|done].
Qed.

(** X22: two events have the same [repr] exactly when they agree on
    the time flag, on the measure and beat of the beat marker (or on
    having none) and on the truth of the MIDI payload.  The text shows
    these and nothing else: not the time signature, not the payload. *)
Theorem Event_repr_shows {Payload : Type} (payload_truthy : Payload → bool)
    (e1 e2 : @Event Payload) :
  Event_repr payload_truthy e1 = Event_repr payload_truthy e2
    ↔ shown payload_truthy e1 = shown payload_truthy e2.
Proof.
  unfold Event_repr, shown.
  destruct e1 as [[p1|] [] [[[[m1 b1] n1] d1]|]],
           e2 as [[p2|] [] [[[[m2 b2] n2] d2]|]];
    simpl; try destruct (payload_truthy p1);
    try destruct (payload_truthy p2); simpl;
    repeat (rewrite ?append_assoc, ?append_cons, ?append_nil).
  all: split; intros H; try done.
  all: try (injection H as H).
  all: try (apply beat_text_inj in H as (-> & -> & H)).
  all: try done.
  all: by subst.
Qed.

(** The text of an event with all three attributes. *)
Example Event_repr_full :
  Event_repr Examples.payload_truthy
    {| midi := Some "A"%string; time := true; beat := Some (12, 3, 4, 4) |}
    = "<Event time, beat(12:3), midi>"%string.
Proof. vm_compute. reflexivity. Qed.

(** ** The tempo factor *)

(** X23: the tempo factor is stored and returned, and nothing else
    reads it: after [set_tempo_factor], [tempo_factor] returns the new
    factor, and [total_time], [current_time], [seek], [seek_measure]
    and [next_event] return or raise, move the cursor and call the
    hooks exactly as they would have without the change. *)
Theorem tempo_factor_is_pure_storage {Payload Tempo : Type}
    (payload_truthy : Payload → bool) (w : @World Payload Tempo)
    (factor : Tempo) (time measnum beat_ : Z) :
  tempo_factor (self (set_tempo_factor factor w).2) = factor ∧
  total_time (self (set_tempo_factor factor w).2) = total_time (self w) ∧
  current_time (self (set_tempo_factor factor w).2)
    = current_time (self w) ∧
  observed (seek time (set_tempo_factor factor w).2)
    = observed (seek time w) ∧
  observed (seek_measure measnum beat_ (set_tempo_factor factor w).2)
    = observed (seek_measure measnum beat_ w) ∧
  observed (next_event payload_truthy (set_tempo_factor factor w).2)
    = observed (next_event payload_truthy w).
Proof.
  destruct w as [[sg events position tempo] cs].
  split; [done|]. split; [done|]. split; [done|]. split; [|split].
  - unfold seek, observed, bind, get, lift. simpl.
    case_bool_decide; [|done].
    destruct (bisect _ _ _ _) as [pos|e]; [|done].
    by destruct (py_index _ _) as [ev|e].
  - unfold seek_measure, observed, bind, get. simpl.
    destruct (seek_measure_loop _ _ _ _ _ _) as [[] [i|]]; done.
  - unfold next_event, observed, bind, get, lift. simpl.
    destruct (_ && _); [|done].
    by destruct (py_index _ _) as [ev|e].
Qed.

(** ** set_song followed by seek *)

(** X24: on the list that [set_song] has built, whatever the song, a
    [seek] with a non-zero time either raises IndexError, when the
    time is after every timestamp of the list, or moves the cursor to
    the first entry whose timestamp is at least the time and reports
    that timestamp minus the time. *)
Theorem seek_after_set_song {Payload Tempo : Type}
    (song : @Song Payload) (time_ : option Z) (beat_ : bool)
    (w : @World Payload Tempo) (time : Z) :
  time ≠ 0 →
  ((∀ ev, ev ∈ make_event_list song time_ beat_ → ev.1 < time) ∧
   seek time (set_song song time_ beat_ w).2
     = (Raise IndexError, (set_song song time_ beat_ w).2)) ∨
  (∃ (i : nat) (ev : Z * Event),
     make_event_list song time_ beat_ !! i = Some ev ∧
     time ≤ ev.1 ∧
     (∀ (j : nat) ev', (j < i)%nat →
        make_event_list song time_ beat_ !! j = Some ev' → ev'.1 < time) ∧
     seek time (set_song song time_ beat_ w).2 =
       (Return tt,
        {| self := {| _song := _song (self (set_song song time_ beat_ w).2);
                      _events := _events (self (set_song song time_ beat_ w).2);
                      _position := Z.of_nat i;
                      _tempo_factor := _tempo_factor (self (set_song song time_ beat_ w).2) |};
           calls := calls w ++ [set_position (Z.of_nat i) (ev.1 - time)] |})).
Proof.
  intros Hne.
  destruct (seek_nonzero_cases (set_song song time_ beat_ w).2 time Hne)
    as (r & Hb & Hcases).
  destruct (bisect_splits _ _ _ (make_event_list_sorted song time_ beat_) Hb)
    as [Hlo Hhi].
  destruct Hcases as [[Hr Hraise]|(ev & Hev & Hret)].
  - left. split; [|done]. intros ev Hev.
    apply list_elem_of_lookup in Hev as [j Hj].
    pose proof (lookup_lt_Some _ _ _ Hj) as Hlt.
    apply (Hlo j ev); [|done]. simpl in Hr. lia.
  - right. exists r, ev. split; [done|].
    split; [by apply (Hhi r ev)|]. split; [|done].
    intros j ev' Hj Hev'. by apply (Hlo j ev').
Qed.

Lemma seek_after_set_song_witness :
  ((∀ ev, ev ∈ make_event_list Examples.song (Some 50) true → ev.1 < 30) ∧
   seek 30 (set_song Examples.song (Some 50) true (Examples.world [] 0)).2
     = (Raise IndexError,
        (set_song Examples.song (Some 50) true (Examples.world [] 0)).2)) ∨
  (∃ (i : nat) (ev : Z * Event),
     make_event_list Examples.song (Some 50) true !! i = Some ev ∧
     30 ≤ ev.1 ∧
     (∀ (j : nat) ev', (j < i)%nat →
        make_event_list Examples.song (Some 50) true !! j = Some ev' →
        ev'.1 < 30) ∧
     seek 30 (set_song Examples.song (Some 50) true (Examples.world [] 0)).2 =
       (Return tt,
        {| self := {| _song := _song (self (set_song Examples.song (Some 50) true (Examples.world [] 0)).2);
                      _events := _events (self (set_song Examples.song (Some 50) true (Examples.world [] 0)).2);
                      _position := Z.of_nat i;
                      _tempo_factor := _tempo_factor (self (set_song Examples.song (Some 50) true (Examples.world [] 0)).2) |};
           calls := [set_position (Z.of_nat i) (ev.1 - 30)] |})).
Proof.
  apply (seek_after_set_song Examples.song (Some 50) true
           (Examples.world [] 0) 30).
  lia.
Defined.

(** ** make_event_list: no silent entry *)

Section silent_entries.
Context {Payload : Type}.
Variable payload_truthy : Payload → bool.
Implicit Types (song : @Song Payload) (e : @Event Payload) (t : Z).

(** The last of the items with a given key exists when some item has
    the key, and is one of the items. *)
Lemma last_with_key {X : Type} (l : list (Z * X)) t :
  t ∈ l.*1 →
  ∃ x, last (filter (λ x, x.1 = t) l) = Some x ∧ x ∈ l ∧ x.1 = t.
Proof.
  intros Hin. apply list_elem_of_fmap in Hin as (y & -> & Hy).
  destruct (last (filter (λ x, x.1 = y.1) l)) as [x|] eqn:Hlast.
  - exists x. split; [done|].
    apply last_Some_elem_of, list_elem_of_filter in Hlast as [Hkey Hx].
    by split.
  - apply last_None in Hlast.
    assert (y ∈ filter (λ x, x.1 = y.1) l) as Hy'
      by (by apply list_elem_of_filter).
    rewrite Hlast in Hy'. by apply elem_of_nil in Hy'.
Qed.

(** The text of an event that has something to show is not the text
    of a fresh [Event()]. *)
Lemma Event_repr_not_blank e :
  (∃ m, midi e = Some m ∧ payload_truthy m = true) ∨
    time e = true ∨ is_Some (beat e) →
  Event_repr payload_truthy e ≠ "<Event >".
Proof.
  unfold Event_repr.
  destruct e as [[m|] [] [[[[mn b] n] d]|]]; simpl;
    try destruct (payload_truthy m) eqn:Hm; simpl;
    repeat (rewrite ?append_assoc, ?append_cons, ?append_nil);
    intros Hshow; try discriminate.
  all: destruct Hshow as [(m' & Hmidi & Htrue)|[Htime|[x Hbeat]]];
    simplify_eq/=; congruence.
Qed.
End silent_entries.

(** X14: when every MIDI payload of the song is true as Python tests
    it, no entry of the list built by [make_event_list] is silent: its
    bundle has a true MIDI payload, the time flag or a beat marker, so
    that its text is not the ["<Event >"] of a fresh [Event()].  (A
    payload that is false, such as [None], leaves a blank entry: see
    [make_event_list_blank_entry].) *)
Theorem make_event_list_no_silent_entry {Payload : Type}
    (payload_truthy : Payload → bool)
    (song : @Song Payload) (time_ : option Z) (beat_ : bool)
    (t : Z) (e : Event) :
  (∀ x, x ∈ music song → payload_truthy x.2 = true) →
  (t, e) ∈ make_event_list song time_ beat_ →
  ((∃ m, midi e = Some m ∧ payload_truthy m = true) ∨
   time e = true ∨ is_Some (beat e)) ∧
  Event_repr payload_truthy e ≠ "<Event >".
Proof.
  intros Htruthy He.
  assert ((∃ m, midi e = Some m ∧ payload_truthy m = true) ∨
          time e = true ∨ is_Some (beat e)) as Hshow;
    [|split; [done|by apply Event_repr_not_blank]].
  apply elem_of_make_event_list in He.
  pose proof (getitem_lookup _ _ _ He) as Hget.
  assert (is_Some (event_dict song time_ beat_ !! t)) as Hkey by (by exists e).
  apply event_dict_keys in Hkey as [Hmusic|[Htick|[-> Hbeat]]].
  - left. destruct (last_with_key (music song) t Hmusic) as (x & Hlast & Hx & _).
    exists x.2. split; [|by apply Htruthy].
    by rewrite <- Hget, midi_event_dict, Hlast.
  - right. left. destruct time_ as [step|]; [|done].
    destruct Htick as [Hstep Hrange].
    rewrite <- Hget, time_event_dict_any.
    by rewrite !bool_decide_eq_true_2 by done.
  - right. right.
    destruct (last_with_key (beats song) t Hbeat) as (x & Hlast & _).
    rewrite <- Hget, beat_event_dict, Hlast. by eexists.
Qed.

Lemma make_event_list_no_silent_entry_witness :
  ((∃ m, midi {| midi := Some "B"%string; time := true;
                 beat := @None Beat |} = Some m ∧
         Examples.payload_truthy m = true) ∨
   time {| midi := Some "B"%string; time := true; beat := @None Beat |}
     = true ∨
   is_Some (beat {| midi := Some "B"%string; time := true;
                    beat := @None Beat |})) ∧
  Event_repr Examples.payload_truthy
    {| midi := Some "B"%string; time := true; beat := @None Beat |}
    ≠ "<Event >"%string.
Proof.
  apply (make_event_list_no_silent_entry Examples.payload_truthy
           Examples.song (Some 50) true 100).
  - intros x Hx. simpl in Hx.
    repeat (apply elem_of_cons in Hx as [->|Hx]; [reflexivity|]).
    by apply elem_of_nil in Hx.
  - rewrite elem_of_make_event_list. vm_compute. reflexivity.
Defined.

(** A song whose only payload is false (here the empty string) gives
    an entry that shows nothing. *)
Example make_event_list_blank_entry :
  Event_repr Examples.payload_truthy <$>
    (snd <$> make_event_list
               {| music := [(0, ""%string)]; length := 0; beats := [] |}
               None false)
    = ["<Event >"%string].
Proof. vm_compute. reflexivity. Qed.
